(** * Randstruct: cache-line best-effort field randomization

    A shallow embedding of [clang/lib/AST/LayoutFieldRandomizer.cpp]
    (classes [Bucket] and [BitfieldRun], [perfrandomize], [rearrange]) and of
    the seed globals of [RandstructSeed], with the structural laws of the
    randomizer proved over it.

    - [size_t] values are [N] with the wrap-around at [2^64] written out;
    - [SmallVector<FieldDecl *, 64>] is [list FieldDecl];
    - [std::unique_ptr<Bucket>] is [option Bucket] ([None] is [nullptr],
      [std::move] out of a pointer leaves [None] behind);
    - the [while] loop of [perfrandomize] is one [loop_body] per iteration,
      run under a step budget;
    - [std::shuffle] is the exchange loop of the standard library over an
      arbitrary uniform random bit generator;
    - for what one call leaves to the next, the call is also given as a
      step of a process that holds the seed globals and the storage of the
      engine objects ([rearrange_step]). *)

From Stdlib Require Import Ascii String List NArith Arith Lia Bool Permutation.
Import ListNotations.

Set Implicit Arguments.

Local Open Scope string_scope.
Local Open Scope list_scope.

(** ** Results of partial computations *)

Inductive error : Type :=
| NullBucketDereference   (* [bucket->randomize()] on a moved-from pointer *)
| StepBudgetExhausted.    (* the loop did not exit within the budget *)

Inductive result (A : Type) : Type :=
| Ok (a : A)
| Err (e : error).

Arguments Ok {A} a.
Arguments Err {A} e.

Definition bind {A B : Type} (r : result A) (k : A -> result B) : result B :=
  match r with
  | Ok a => k a
  | Err e => Err e
  end.

Notation "x <- r ;; k" := (bind r (fun x => k))
  (at level 61, r at next level, right associativity).

(** ** The declarations the randomizer sees *)

(** [QualType] is named by its spelling; [TypeInfo] is what
    [ASTContext::getTypeInfo] answers. *)
Definition QualType : Type := string.

Record TypeInfo : Type := mkTypeInfo { Width : N; Align : N }.

Record ASTContext : Type := mkASTContext { getTypeInfo : QualType -> TypeInfo }.

Record FieldDecl : Type := mkFieldDecl {
  getName : string;
  isBitField : bool;
  getType : QualType
}.

(** ** [size_t] *)

Definition SIZE_MODULUS : N := 2 ^ 64.

Definition size_add (a b : N) : N := ((a + b) mod SIZE_MODULUS)%N.

(** [const size_t CACHE_LINE = 64;] *)
Definition CACHE_LINE : N := 64.

(** ** The seed globals *)

Record Globals : Type := mkGlobals {
  RandstructSeed : string;
  RandstructAutoSelect : bool
}.

(** Both globals as the program starts: the empty seed, no auto-select. *)
Definition initial_globals : Globals :=
  {| RandstructSeed := EmptyString; RandstructAutoSelect := false |}.

(** ** The random source

    [std::seed_seq], [std::default_random_engine] and the uniform integer
    distribution [std::shuffle] draws from belong to the C++ library; they
    are a parameter of the development. [uniform g d] is one draw from
    [[0, d]] together with the advanced engine. *)

Class RandomSource : Type := {
  Engine : Type;
  seed_engine : string -> Engine;
  uniform : Engine -> nat -> nat * Engine
}.

(** ** [std::shuffle] *)

Section Shuffle.
Context {RS : RandomSource}.
Variable A : Type.

(** The exchange of the first element of the range [l] with the one [j]
    places further. [j] never leaves the range when it comes from
    [uniform _ (length l - 1)]; an exchange outside of it is left out. *)
Definition iter_swap (j : nat) (l : list A) : list A :=
  match j, l with
  | 0, _ => l
  | S k, x :: rest =>
      match nth_error rest k with
      | Some y => y :: firstn k rest ++ x :: skipn (S k) rest
      | None => l
      end
  | S _, [] => l
  end.

(** The loop [for (--last, --d; first < last; ++first, --d)]: draw [i]
    from [[0, d]] and, when it is not zero, exchange the first element
    with the one [i] places further. *)
Fixpoint shuffle_loop (d : nat) (l : list A) (g : Engine) : list A * Engine :=
  match d with
  | 0 => (l, g)
  | S d' =>
      let (i, g') := uniform g d in
      match iter_swap i l with
      | [] => ([], g')
      | y :: rest =>
          let (rest', g'') := shuffle_loop d' rest g' in
          (y :: rest', g'')
      end
  end.

Definition std_shuffle (l : list A) (g : Engine) : list A * Engine :=
  shuffle_loop (length l - 1) l g.

(** A shuffle site of the source: a fresh engine from the seed string, one
    [std::shuffle], the engine dropped. *)
Definition seeded_shuffle (seed : string) (l : list A) : list A :=
  fst (std_shuffle l (seed_engine seed)).
End Shuffle.

(** ** [class Bucket] and [class BitfieldRun : public Bucket] *)

Inductive BucketClass : Type := BucketBase | BitfieldRunClass.

Record Bucket : Type := mkBucket {
  dynamic_class : BucketClass;
  size : N;
  fields : list FieldDecl
}.

(** [llvm::make_unique<Bucket>()] and [llvm::make_unique<BitfieldRun>()]:
    value-initialised, so [size] is zero and [fields] is empty. *)
Definition make_Bucket : Bucket :=
  {| dynamic_class := BucketBase; size := 0; fields := [] |}.

Definition make_BitfieldRun : Bucket :=
  {| dynamic_class := BitfieldRunClass; size := 0; fields := [] |}.

Definition empty (b : Bucket) : bool := (size b =? 0)%N.

Definition full (b : Bucket) : bool := (CACHE_LINE <=? size b)%N.

Definition Bucket_canFit (b : Bucket) (sz : N) : bool :=
  empty b || (size_add (size b) sz <=? CACHE_LINE)%N.

Definition BitfieldRun_canFit (b : Bucket) (sz : N) : bool := true.

(** The virtual call [b->canFit(sz)]. *)
Definition canFit (b : Bucket) (sz : N) : bool :=
  match dynamic_class b with
  | BucketBase => Bucket_canFit b sz
  | BitfieldRunClass => BitfieldRun_canFit b sz
  end.

Definition add (b : Bucket) (field : FieldDecl) (sz : N) : Bucket :=
  {| dynamic_class := dynamic_class b;
     size := size_add (size b) sz;
     fields := fields b ++ [field] |}.

(** The virtual call [b->isBitfieldRun()]. *)
Definition isBitfieldRun (b : Bucket) : bool :=
  match dynamic_class b with
  | BucketBase => false
  | BitfieldRunClass => true
  end.

(** What the specification calls [tryAdd]: the source asks [canFit] and,
    on a positive answer, calls [add]. *)
Definition tryAdd (b : Bucket) (field : FieldDecl) (sz : N) : bool * Bucket :=
  if canFit b sz then (true, add b field sz) else (false, b).

Section Randomize.
Context {RS : RandomSource}.

Definition Bucket_randomize (g : Globals) (b : Bucket) : list FieldDecl :=
  seeded_shuffle (RandstructSeed g) (fields b).

Definition BitfieldRun_randomize (g : Globals) (b : Bucket) : list FieldDecl :=
  fields b.

(** The virtual call [b->randomize()]. *)
Definition randomize (g : Globals) (b : Bucket) : list FieldDecl :=
  match dynamic_class b with
  | BucketBase => Bucket_randomize g b
  | BitfieldRunClass => BitfieldRun_randomize g b
  end.
End Randomize.

(** ** The partitioning loop of [perfrandomize] *)

Record LoopState : Type := mkLoopState {
  st_fields : list FieldDecl;               (* [fields], the work queue *)
  st_buckets : list (option Bucket);        (* [buckets] *)
  st_currentBucket : option Bucket;         (* [currentBucket] *)
  st_currentBitfieldRun : option Bucket;    (* [currentBitfieldRun] *)
  st_skipped : nat                          (* [skipped] *)
}.

Definition initial_state (input : list FieldDecl) : LoopState :=
  {| st_fields := input;
     st_buckets := [];
     st_currentBucket := None;
     st_currentBitfieldRun := None;
     st_skipped := 0 |}.

(** [if (skipped >= fields.size()) { skipped = 0;
      buckets.push_back(std::move(currentBucket)); }] *)
Definition escape_check (st : LoopState) : LoopState :=
  if (length (st_fields st) <=? st_skipped st)%nat then
    {| st_fields := st_fields st;
       st_buckets := st_buckets st ++ [st_currentBucket st];
       st_currentBucket := None;
       st_currentBitfieldRun := st_currentBitfieldRun st;
       st_skipped := 0 |}
  else st.

(** [if (p) buckets.push_back(std::move(p));] *)
Definition tie_off (buckets : list (option Bucket)) (p : option Bucket)
  : list (option Bucket) :=
  match p with
  | Some b => buckets ++ [Some b]
  | None => buckets
  end.

(** [if (!p) p = make_unique<...>();] followed by a use of [*p]. *)
Definition or_make (p : option Bucket) (fresh : Bucket) : Bucket :=
  match p with
  | Some b => b
  | None => fresh
  end.

(** The part of the body after the escape check, on the front field [f] of
    the queue [f :: rest]. *)
Definition place_field (ctx : ASTContext) (f : FieldDecl) (rest : list FieldDecl)
    (st : LoopState) : LoopState :=
  if isBitField f then
    let run := or_make (st_currentBitfieldRun st) make_BitfieldRun in
    {| st_fields := rest;
       st_buckets := st_buckets st;
       st_currentBucket := st_currentBucket st;
       st_currentBitfieldRun := Some (add run f 1);
       st_skipped := st_skipped st |}
  else
    let buckets := tie_off (st_buckets st) (st_currentBitfieldRun st) in
    let cur := or_make (st_currentBucket st) make_Bucket in
    let width := Width (getTypeInfo ctx (getType f)) in
    if canFit cur width then
      let cur' := add cur f width in
      if full cur' then
        {| st_fields := rest;
           st_buckets := buckets ++ [Some cur'];
           st_currentBucket := None;
           st_currentBitfieldRun := None;
           st_skipped := 0 |}
      else
        {| st_fields := rest;
           st_buckets := buckets;
           st_currentBucket := Some cur';
           st_currentBitfieldRun := None;
           st_skipped := st_skipped st |}
    else
      {| st_fields := rest ++ [f];
         st_buckets := buckets;
         st_currentBucket := Some cur;
         st_currentBitfieldRun := None;
         st_skipped := S (st_skipped st) |}.

(** One iteration of [while (!fields.empty())]. *)
Definition loop_body (ctx : ASTContext) (st : LoopState) : LoopState :=
  let st1 := escape_check st in
  match st_fields st1 with
  | [] => st1
  | f :: rest => place_field ctx f rest st1
  end.

Fixpoint while_fields (budget : nat) (ctx : ASTContext) (st : LoopState)
  : result LoopState :=
  match st_fields st with
  | [] => Ok st
  | _ :: _ =>
      match budget with
      | 0 => Err StepBudgetExhausted
      | S budget' => while_fields budget' ctx (loop_body ctx st)
      end
  end.

(** Iterations that always suffice for a queue of [n] fields. *)
Definition iteration_bound (n : nat) : nat := n * (n + 2).

(** The code after the loop up to the group shuffle: the two closing
    tie-offs. *)
Definition sealed_buckets (st : LoopState) : list (option Bucket) :=
  tie_off (tie_off (st_buckets st) (st_currentBucket st))
          (st_currentBitfieldRun st).

(** The Partitioner: the sealed groups in the order they were sealed. *)
Definition partition (ctx : ASTContext) (input : list FieldDecl)
  : result (list (option Bucket)) :=
  st <- while_fields (iteration_bound (length input)) ctx (initial_state input) ;;
  Ok (sealed_buckets st).

Section Perfrandomize.
Context {RS : RandomSource}.

(** [for (auto &bucket : buckets) { auto randomized = bucket->randomize();
      finalOrder.insert(finalOrder.end(), ...); }] *)
Fixpoint flatten (g : Globals) (buckets : list (option Bucket))
  : result (list FieldDecl) :=
  match buckets with
  | [] => Ok []
  | None :: _ => Err NullBucketDereference
  | Some b :: more =>
      tail <- flatten g more ;;
      Ok (randomize g b ++ tail)
  end.

Definition perfrandomize (g : Globals) (ctx : ASTContext)
    (input : list FieldDecl) : result (list FieldDecl) :=
  buckets <- partition ctx input ;;
  flatten g (seeded_shuffle (RandstructSeed g) buckets).

Definition rearrange (g : Globals) (ctx : ASTContext)
    (input : list FieldDecl) : result (list FieldDecl) :=
  perfrandomize g ctx input.
End Perfrandomize.

(** The free function [randomize(SmallVector<Decl *, 64> fields)]: one
    seeded shuffle of the whole member list. The name [randomize] is taken
    by the virtual call above. *)
Definition randomize_decls {RS : RandomSource} (g : Globals)
    (fields : list FieldDecl) : list FieldDecl :=
  seeded_shuffle (RandstructSeed g) fields.

(** ** The call as a step of the process

    What one call leaves behind for the next one. The process holds the
    seed globals and the storage the engine objects live in: a local
    [auto rng = std::default_random_engine{Seq};] is built at the top of
    the stack, over whatever an earlier call left there, [std::shuffle]
    reads and advances the object it is handed by reference, and the
    storage is given back, contents and all, when the scope ends. *)

Record Process {RS : RandomSource} : Type := mkProcess {
  globals : Globals;
  engine_at : nat -> Engine;      (* the engine object at each address *)
  stack_top : nat                 (* where the next local is built *)
}.

Definition Step {RS : RandomSource} (A : Type) : Type :=
  Process -> result A * Process.

Definition ret_step {RS : RandomSource} {A : Type} (a : A) : Step A :=
  fun p => (Ok a, p).

Definition fail_step {RS : RandomSource} {A : Type} (e : error) : Step A :=
  fun p => (Err e, p).

Definition bind_step {RS : RandomSource} {A B : Type} (m : Step A)
    (k : A -> Step B) : Step B :=
  fun p =>
    match m p with
    | (Ok a, p') => k a p'
    | (Err e, p') => (Err e, p')
    end.

Notation "x <~ m ;; k" := (bind_step m (fun x => k))
  (at level 61, m at next level, right associativity).

Definition set_engine {RS : RandomSource} (store : nat -> Engine) (at_ : nat)
    (e : Engine) : nat -> Engine :=
  fun i => if (i =? at_)%nat then e else store i.

(** Reading the global [RandstructSeed]. *)
Definition read_RandstructSeed {RS : RandomSource} : Step string :=
  fun p => (Ok (RandstructSeed (globals p)), p).

(** The scope of a local engine: [std::seed_seq Seq(seed.begin(),
    seed.end()); auto rng = std::default_random_engine{Seq};], the code
    that uses [rng], the end of the scope. *)
Definition local_engine {RS : RandomSource} {A : Type} (seed : string)
    (body : nat -> Step A) : Step A :=
  fun p =>
    let rng := stack_top p in
    let (r, p') :=
      body rng {| globals := globals p;
                  engine_at := set_engine (engine_at p) rng (seed_engine seed);
                  stack_top := S rng |} in
    (r, {| globals := globals p';
           engine_at := engine_at p';
           stack_top := rng |}).

(** [std::shuffle(std::begin(l), std::end(l), rng)] on the engine object
    at address [rng]. *)
Definition shuffle_by {RS : RandomSource} {A : Type} (rng : nat) (l : list A)
  : Step (list A) :=
  fun p =>
    let (l', e') := std_shuffle l (engine_at p rng) in
    (Ok l', {| globals := globals p;
               engine_at := set_engine (engine_at p) rng e';
               stack_top := stack_top p |}).

Definition Bucket_randomize_step {RS : RandomSource} (b : Bucket)
  : Step (list FieldDecl) :=
  seed <~ read_RandstructSeed ;;
  local_engine seed (fun rng => shuffle_by rng (fields b)).

Definition BitfieldRun_randomize_step {RS : RandomSource} (b : Bucket)
  : Step (list FieldDecl) :=
  ret_step (fields b).

Definition randomize_step {RS : RandomSource} (b : Bucket)
  : Step (list FieldDecl) :=
  match dynamic_class b with
  | BucketBase => Bucket_randomize_step b
  | BitfieldRunClass => BitfieldRun_randomize_step b
  end.

Fixpoint flatten_step {RS : RandomSource} (buckets : list (option Bucket))
  : Step (list FieldDecl) :=
  match buckets with
  | [] => ret_step []
  | None :: _ => fail_step NullBucketDereference
  | Some b :: more =>
      randomized <~ randomize_step b ;;
      tail <~ flatten_step more ;;
      ret_step (randomized ++ tail)
  end.

(** [perfrandomize]: the partitioning works on locals only; [Seq] and
    [rng] of the group shuffle live until the function returns, so the
    engines of the calls of [randomize] in the closing loop are built
    above them. *)
Definition perfrandomize_step {RS : RandomSource} (ctx : ASTContext)
    (input : list FieldDecl) : Step (list FieldDecl) :=
  match partition ctx input with
  | Err e => fail_step e
  | Ok buckets =>
      seed <~ read_RandstructSeed ;;
      local_engine seed (fun rng =>
        shuffled <~ shuffle_by rng buckets ;;
        flatten_step shuffled)
  end.

Definition rearrange_step {RS : RandomSource} (ctx : ASTContext)
    (input : list FieldDecl) : Step (list FieldDecl) :=
  perfrandomize_step ctx input.

(** A shuffle on an engine that is not built afresh: on whatever object
    is at the address. The source has no such site; it is here to be told
    apart. *)
Definition stale_shuffle_step {RS : RandomSource} (rng : nat)
    (input : list FieldDecl) : Step (list FieldDecl) :=
  shuffle_by rng input.

(** ** A concrete random source for the examples

    A Lehmer generator with the multiplier and modulus of [std::minstd_rand],
    seeded by folding the characters of the seed string; a draw from
    [[0, d]] is the residue of the state. *)

Definition lehmer_next (x : N) : N := ((x * 48271) mod 2147483647)%N.

Definition lehmer_seed (s : string) : N :=
  fold_left (fun acc c => lehmer_next (acc + N_of_ascii c + 1))
            (list_ascii_of_string s) 1%N.

#[export] Instance lehmer_source : RandomSource :=
  {| Engine := N;
     seed_engine := lehmer_seed;
     uniform := fun g d => (N.to_nat (g mod N.of_nat (S d)), lehmer_next g) |}.

(** * Vocabulary of the statements *)

(** ** The loop as a transition system *)

(** Splits a goal about [place_field] into the four branches of the source:
    bit-field, fits and fills, fits, does not fit. *)
Ltac place_field_cases f cur width :=
  unfold place_field;
  destruct (isBitField f) eqn:?;
  [ | destruct (canFit cur width) eqn:?;
      [ destruct (full (add cur f width)) eqn:? | ] ];
  cbn [st_fields st_buckets st_currentBucket st_currentBitfieldRun st_skipped].

(** States the loop of [perfrandomize] passes through at its head. *)
Inductive reachable (ctx : ASTContext) (input : list FieldDecl)
  : LoopState -> Prop :=
| reach_init : reachable ctx input (initial_state input)
| reach_step (st : LoopState) :
    reachable ctx input st ->
    st_fields st <> [] ->
    reachable ctx input (loop_body ctx st).

(** The variant of the loop: lexicographic in the queue length and in the
    distance of [skipped] from it, packed into one number. *)
Definition loop_measure (st : LoopState) : nat :=
  let n := length (st_fields st) in
  n * (n + 1) + (n - st_skipped st).

(** ** Null pointers and contents *)

Definition non_null (p : option Bucket) : Prop := p <> None.

Definition null_safe (st : LoopState) : Prop :=
  (0 < st_skipped st -> st_currentBucket st <> None)
  /\ Forall non_null (st_buckets st).

Definition holds (P : Bucket -> Prop) (p : option Bucket) : Prop :=
  match p with
  | Some b => P b
  | None => True
  end.

(** The fields a bucket pointer holds, none for a null pointer. *)
Definition contents (p : option Bucket) : list FieldDecl :=
  match p with
  | Some b => fields b
  | None => []
  end.

Definition randomized {RS : RandomSource} (g : Globals) (p : option Bucket)
  : list FieldDecl :=
  match p with
  | Some b => randomize g b
  | None => []
  end.

(** The index permutation a seeded shuffle applies to a range of [n]
    elements. *)
Definition shuffle_indices {RS : RandomSource} (seed : string) (n : nat)
  : list nat :=
  seeded_shuffle seed (seq 0 n).

(** ** Counting members *)

Definition FieldDecl_eq_dec (x y : FieldDecl) : {x = y} + {x <> y}.
Proof. decide equality; first [apply string_dec | apply bool_dec]. Defined.

(** Every member the loop holds: in the sealed buckets, in the two open
    ones, and in the queue. *)
Definition all_fields (st : LoopState) : list FieldDecl :=
  flat_map contents (sealed_buckets st) ++ st_fields st.

Definition occurrences (x : FieldDecl) (l : list FieldDecl) : nat :=
  count_occ FieldDecl_eq_dec l x.

(** ** Bit-field runs *)

Definition all_bitfields (l : list FieldDecl) : Prop :=
  Forall (fun f => isBitField f = true) l.

Definition all_plain (l : list FieldDecl) : Prop :=
  Forall (fun f => isBitField f = false) l.

(** [l] does not begin with a bit-field. *)
Definition starts_plain (l : list FieldDecl) : Prop :=
  match l with
  | [] => True
  | x :: _ => isBitField x = false
  end.

(** [l] does not end with a bit-field. *)
Definition ends_plain (l : list FieldDecl) : Prop :=
  forall l' x, l = l' ++ [x] -> isBitField x = false.

(** [r] is a maximal run of consecutive bit-fields of [pre ++ r ++ post]. *)
Definition maximal_run (pre r post : list FieldDecl) : Prop :=
  r <> [] /\ all_bitfields r /\ ends_plain pre /\ starts_plain post.

(** A bit-field run bucket holding exactly [r]. *)
Definition run_bucket_of (r : list FieldDecl) (b : Bucket) : Prop :=
  dynamic_class b = BitfieldRunClass /\ fields b = r.

(** Where the run [r] of the input is while the loop runs: still whole in
    the queue, partly in the open bit-field run with the remainder at the
    front of the queue, or sealed. *)
Inductive run_progress (r : list FieldDecl) (st : LoopState) : Prop :=
| run_waiting (pre post : list FieldDecl) :
    st_fields st = pre ++ r ++ post ->
    ends_plain pre ->
    starts_plain post ->
    (pre = [] -> st_currentBitfieldRun st = None) ->
    run_progress r st
| run_open (r1 r2 post : list FieldDecl) (b : Bucket) :
    r = r1 ++ r2 ->
    st_currentBitfieldRun st = Some b ->
    run_bucket_of r1 b ->
    st_fields st = r2 ++ post ->
    starts_plain post ->
    run_progress r st
| run_sealed (b : Bucket) :
    In (Some b) (st_buckets st) ->
    run_bucket_of r b ->
    run_progress r st.

Definition generic_bucket (b : Bucket) : Prop :=
  dynamic_class b = BucketBase /\ all_plain (fields b).

Definition run_bucket (b : Bucket) : Prop :=
  dynamic_class b = BitfieldRunClass /\ all_bitfields (fields b).

Definition well_kinded (b : Bucket) : Prop := generic_bucket b \/ run_bucket b.

Definition kinds_kept (st : LoopState) : Prop :=
  Forall (holds well_kinded) (st_buckets st)
  /\ holds generic_bucket (st_currentBucket st)
  /\ holds run_bucket (st_currentBitfieldRun st).

(** The claim as C7 words it, for one run, one member and one width. *)
Definition run_tryAdd_selects (b : Bucket) (f : FieldDecl) (sz : N) : Prop :=
  fst (tryAdd b f sz) = isBitField f.

(** The bit-field run after the Partitioner has added the members of [l] to
    a fresh one: [currentBitfieldRun->add(f, 1)] for each. *)
Definition run_after_from (b : Bucket) (l : list FieldDecl) : Bucket :=
  fold_left (fun run f => add run f 1) l b.

Definition run_after (l : list FieldDecl) : Bucket :=
  run_after_from make_BitfieldRun l.

(** The claim as C6 words it, for the run holding the bit-fields [l]. *)
Definition run_never_full (l : list FieldDecl) : Prop :=
  all_bitfields l -> full (run_after l) = false.

(** ** Widths and capacity *)

Definition field_width (ctx : ASTContext) (f : FieldDecl) : N :=
  Width (getTypeInfo ctx (getType f)).

(** The widths of the fields of a bucket, added up without wrap-around. *)
Definition accumulated_width (ctx : ASTContext) (l : list FieldDecl) : N :=
  fold_right N.add 0%N (map (field_width ctx) l).

(** The capacity law for one group: within the cache line, or one oversized
    member alone. *)
Definition capacity_law (ctx : ASTContext) (b : Bucket) : Prop :=
  (accumulated_width ctx (fields b) <= CACHE_LINE)%N
  \/ exists f, fields b = [f] /\ (CACHE_LINE < field_width ctx f)%N.

(** Widths the wrap-around of [size_t] cannot reach, and not zero. *)
Definition ordinary_width (w : N) : Prop := (0 < w < 2 ^ 63)%N.

(** An open generic bucket whose members all have a positive width: [size]
    is the true sum, below the cache line, and zero only with no member. *)
Definition open_within_capacity (ctx : ASTContext) (b : Bucket) : Prop :=
  dynamic_class b = BucketBase
  /\ size b = accumulated_width ctx (fields b)
  /\ (size b < CACHE_LINE)%N
  /\ (size b = 0%N -> fields b = []).

Definition generic_capacity_law (ctx : ASTContext) (b : Bucket) : Prop :=
  isBitfieldRun b = false -> capacity_law ctx b.

Definition capacity_kept (ctx : ASTContext) (st : LoopState) : Prop :=
  Forall (holds (generic_capacity_law ctx)) (st_buckets st)
  /\ holds (open_within_capacity ctx) (st_currentBucket st).

(** ** Example declarations *)

Definition example_ctx : ASTContext :=
  {| getTypeInfo := fun t =>
       {| Width := if string_dec t "int" then 32
                   else if string_dec t "char" then 8
                   else if string_dec t "long" then 64
                   else if string_dec t "__int128" then 128
                   else if string_dec t "int[0]" then 0
                   else 40;
          Align := 8 |} |}.

Definition plain_field (name type : string) : FieldDecl :=
  {| getName := name; isBitField := false; getType := type |}.

Definition bit_field (name : string) : FieldDecl :=
  {| getName := name; isBitField := true; getType := "int" |}.

Definition example_globals : Globals :=
  {| RandstructSeed := "seed"; RandstructAutoSelect := false |}.

Definition example_group_ab : Bucket :=
  {| dynamic_class := BucketBase; size := 64;
     fields := [plain_field "a" "int"; plain_field "b" "int"] |}.

Definition example_group_cd : Bucket :=
  {| dynamic_class := BucketBase; size := 64;
     fields := [plain_field "c" "int"; plain_field "d" "int"] |}.

Definition zero_width_input : list FieldDecl :=
  [plain_field "z" "int[0]"; plain_field "big" "__int128"].

Definition zero_width_group : Bucket :=
  {| dynamic_class := BucketBase; size := 128; fields := zero_width_input |}.

(** Two members of 40 bits each: the second does not fit next to the first
    and is skipped once. *)
Definition example_pair_input : list FieldDecl :=
  [plain_field "a" "struct pair"; plain_field "b" "struct pair"].

Definition example_skipped_state : LoopState :=
  loop_body example_ctx
    (loop_body example_ctx (initial_state example_pair_input)).

Definition example_run_xy : Bucket :=
  {| dynamic_class := BitfieldRunClass; size := 2;
     fields := [bit_field "x"; bit_field "y"] |}.

(** ** Groups and the queue, for the further properties *)

(** A bucket with at least one field. *)
Definition inhabited (b : Bucket) : Prop := fields b <> [].

Definition groups_inhabited (st : LoopState) : Prop :=
  Forall (holds inhabited) (st_buckets st)
  /\ holds inhabited (st_currentBucket st)
  /\ holds inhabited (st_currentBitfieldRun st).

(** [r] is a maximal run of consecutive bit-fields somewhere in [input]. *)
Definition is_maximal_run_of (input r : list FieldDecl) : Prop :=
  exists pre post, input = pre ++ r ++ post /\ maximal_run pre r post.

(** The open bit-field run holds the bit-fields at the end of the visited
    prefix [P] of the input; with no run open, and input left to visit,
    [P] does not end with a bit-field. *)
Definition open_run_tracks (P U : list FieldDecl) (p : option Bucket) : Prop :=
  match p with
  | Some b =>
      exists P', P = P' ++ fields b /\ fields b <> []
                 /\ all_bitfields (fields b) /\ ends_plain P'
  | None => U <> [] -> ends_plain P
  end.

(** The queue is the not yet visited suffix [U] of the input followed by
    re-queued plain members [S]; the sealed bit-field runs are maximal runs
    of the input. *)
Inductive queue_split (input : list FieldDecl) (st : LoopState) : Prop :=
| queue_split_intro (P U S : list FieldDecl) :
    input = P ++ U ->
    st_fields st = U ++ S ->
    all_plain S ->
    (forall b, In (Some b) (st_buckets st) -> isBitfieldRun b = true ->
               is_maximal_run_of input (fields b)) ->
    open_run_tracks P U (st_currentBitfieldRun st) ->
    queue_split input st.

(** What [size] should hold: the widths handed to [add], modulo [2^64];
    the Partitioner hands a bit-field run one unit per member. *)
Definition booked_size (ctx : ASTContext) (b : Bucket) : N :=
  match dynamic_class b with
  | BucketBase => (accumulated_width ctx (fields b) mod SIZE_MODULUS)%N
  | BitfieldRunClass => (N.of_nat (length (fields b)) mod SIZE_MODULUS)%N
  end.

Definition well_booked (ctx : ASTContext) (b : Bucket) : Prop :=
  size b = booked_size ctx b.

Definition books_kept (ctx : ASTContext) (st : LoopState) : Prop :=
  Forall (holds (well_booked ctx)) (st_buckets st)
  /\ holds (well_booked ctx) (st_currentBucket st)
  /\ holds (well_booked ctx) (st_currentBitfieldRun st).

(** Loop-head bounds: the counter within the queue, the open bucket not
    full. *)
Definition head_bounds (st : LoopState) : Prop :=
  st_skipped st <= length (st_fields st)
  /\ holds (fun b => full b = false) (st_currentBucket st).

(** A plain member that fills a cache line on its own. *)
Definition fills_cache_line (ctx : ASTContext) (f : FieldDecl) : Prop :=
  isBitField f = false
  /\ (CACHE_LINE <= field_width ctx f < SIZE_MODULUS)%N.

(** The group such a member is sealed in. *)
Definition own_group (ctx : ASTContext) (f : FieldDecl) : option Bucket :=
  Some {| dynamic_class := BucketBase; size := field_width ctx f;
          fields := [f] |}.

(** The generic bucket after the members of [l] have been added to [b]. *)
Definition bucket_after (ctx : ASTContext) (b : Bucket) (l : list FieldDecl)
  : Bucket :=
  fold_left (fun cur f => add cur f (field_width ctx f)) l b.

Definition example_small_input : list FieldDecl :=
  [plain_field "c" "char"; plain_field "i" "int"; plain_field "d" "char"].

Definition example_wide_input : list FieldDecl :=
  [plain_field "l" "long"; plain_field "q" "__int128"; plain_field "m" "long"].

Definition example_mixed_input : list FieldDecl :=
  [plain_field "a" "struct pair"; plain_field "b" "struct pair";
   bit_field "x"; plain_field "c" "char"; bit_field "y"].

(** ** Processes *)

(** What a call returns and what it leaves of the process. *)
Definition output_of {RS : RandomSource} {A : Type} (m : Step A) (p : Process)
  : result A := fst (m p).

Definition process_after {RS : RandomSource} {A : Type} (m : Step A)
    (p : Process) : Process := snd (m p).

(** The call returns [r] and gives the process back with its globals and
    its stack top as they were. *)
Definition returns {RS : RandomSource} {A : Type} (m : Step A) (p : Process)
    (r : result A) : Prop :=
  output_of m p = r
  /\ globals (process_after m p) = globals p
  /\ stack_top (process_after m p) = stack_top p.

(** Two processes under the seed [seed]: a young one, and one with other
    engine states in its storage, another stack top and the other
    auto-select flag. *)
Definition example_process : @Process lehmer_source :=
  {| globals := example_globals;
     engine_at := fun _ => 1%N;
     stack_top := 0 |}.

Definition example_process_later : @Process lehmer_source :=
  {| globals := {| RandstructSeed := "seed"; RandstructAutoSelect := true |};
     engine_at := fun i => (N.of_nat (i * i) + 12345)%N;
     stack_top := 7 |}.

Definition example_long_input : list FieldDecl :=
  [plain_field "a" "char"; plain_field "b" "char"; plain_field "c" "char";
   plain_field "d" "char"; plain_field "e" "char"].

(** * Properties of [std::shuffle] *)

Section ShuffleFacts.
Context {RS : RandomSource}.

Lemma skipn_past_middle (A : Type) (l1 l2 : list A) (y : A) :
  skipn (S (length l1)) (l1 ++ y :: l2) = l2.
Proof. induction l1 as [|a l1 IH]; [reflexivity|exact IH]. Qed.

Lemma firstn_before_middle (A : Type) (l1 l2 : list A) :
  firstn (length l1) (l1 ++ l2) = l1.
Proof. induction l1 as [|a l1 IH]; simpl; [now destruct l2|now f_equal]. Qed.

Lemma iter_swap_Permutation (A : Type) (j : nat) (l : list A) :
  Permutation l (iter_swap j l).
Proof.
  destruct j as [|k]; [reflexivity|].
  destruct l as [|x rest]; [reflexivity|].
  unfold iter_swap. destruct (nth_error rest k) as [y|] eqn:Hy; [|reflexivity].
  apply nth_error_split in Hy as (l1 & l2 & Hrest & Hlen).
  subst rest k.
  rewrite firstn_before_middle, skipn_past_middle.
  transitivity (x :: y :: l1 ++ l2).
  - apply perm_skip, Permutation_sym, Permutation_middle.
  - transitivity (y :: x :: l1 ++ l2); [apply perm_swap|].
    apply perm_skip, Permutation_middle.
Qed.

Lemma shuffle_loop_Permutation (A : Type) (d : nat) :
  forall (l : list A) (g : Engine), Permutation l (fst (shuffle_loop d l g)).
Proof.
  induction d as [|d IH]; intros l g; simpl; [reflexivity|].
  destruct (uniform g (S d)) as [i g'].
  pose proof (iter_swap_Permutation i l) as Hswap.
  destruct (iter_swap i l) as [|y rest]; simpl; [exact Hswap|].
  specialize (IH rest g').
  destruct (shuffle_loop d rest g') as [rest' g'']; simpl in *.
  rewrite Hswap. now apply perm_skip.
Qed.

Lemma seeded_shuffle_Permutation (A : Type) (seed : string) (l : list A) :
  Permutation l (seeded_shuffle seed l).
Proof. apply shuffle_loop_Permutation. Qed.

(** The shuffle never looks at the elements: it commutes with [map]. *)
Lemma iter_swap_map (A B : Type) (f : A -> B) (j : nat) (l : list A) :
  iter_swap j (map f l) = map f (iter_swap j l).
Proof.
  destruct j as [|k]; [reflexivity|].
  destruct l as [|x rest]; [reflexivity|].
  unfold iter_swap. cbn [map]. rewrite nth_error_map.
  destruct (nth_error rest k) as [y|]; cbn [option_map map]; [|reflexivity].
  now rewrite map_app, firstn_map; cbn [map]; rewrite skipn_map.
Qed.

Lemma shuffle_loop_map (A B : Type) (f : A -> B) (d : nat) :
  forall (l : list A) (g : Engine),
    shuffle_loop d (map f l) g
    = (map f (fst (shuffle_loop d l g)), snd (shuffle_loop d l g)).
Proof.
  induction d as [|d IH]; intros l g; simpl; [reflexivity|].
  destruct (uniform g (S d)) as [i g'].
  rewrite iter_swap_map.
  destruct (iter_swap i l) as [|y rest]; simpl; [reflexivity|].
  rewrite IH.
  now destruct (shuffle_loop d rest g') as [rest' g''].
Qed.

Lemma seeded_shuffle_map (A B : Type) (f : A -> B) (seed : string) (l : list A) :
  seeded_shuffle seed (map f l) = map f (seeded_shuffle seed l).
Proof.
  unfold seeded_shuffle, std_shuffle.
  now rewrite length_map, shuffle_loop_map.
Qed.

Lemma map_nth_error_seq (A : Type) (l : list A) :
  map (nth_error l) (seq 0 (length l)) = map Some l.
Proof.
  induction l as [|x l IH]; [reflexivity|].
  simpl. f_equal. now rewrite <- seq_shift, map_map.
Qed.

Lemma seeded_shuffle_by_indices (A : Type) (seed : string) (l : list A) :
  map Some (seeded_shuffle seed l)
  = map (nth_error l) (shuffle_indices seed (length l)).
Proof.
  unfold shuffle_indices.
  now rewrite <- !seeded_shuffle_map, map_nth_error_seq.
Qed.
End ShuffleFacts.

(** * The partitioning loop: case analysis, reachability, termination *)

Lemma escape_check_fields (st : LoopState) :
  st_fields (escape_check st) = st_fields st.
Proof. unfold escape_check. now destruct (_ <=? _)%nat. Qed.

Lemma escape_check_run (st : LoopState) :
  st_currentBitfieldRun (escape_check st) = st_currentBitfieldRun st.
Proof. unfold escape_check. now destruct (_ <=? _)%nat. Qed.

(** The escape check either fires (the counter has reached the queue length)
    or leaves the state alone. *)
Lemma escape_check_cases (st : LoopState) :
  (length (st_fields st) <= st_skipped st
   /\ escape_check st
      = {| st_fields := st_fields st;
           st_buckets := st_buckets st ++ [st_currentBucket st];
           st_currentBucket := None;
           st_currentBitfieldRun := st_currentBitfieldRun st;
           st_skipped := 0 |})
  \/ (st_skipped st < length (st_fields st) /\ escape_check st = st).
Proof.
  unfold escape_check.
  destruct (Nat.leb_spec (length (st_fields st)) (st_skipped st)); auto.
Qed.

Lemma loop_body_place (ctx : ASTContext) (st : LoopState) (f : FieldDecl)
    (rest : list FieldDecl) :
  st_fields st = f :: rest ->
  loop_body ctx st = place_field ctx f rest (escape_check st).
Proof.
  intros Hq. unfold loop_body. now rewrite escape_check_fields, Hq.
Qed.

Lemma canFit_make_Bucket (sz : N) : canFit make_Bucket sz = true.
Proof. reflexivity. Qed.

Lemma while_fields_reachable (ctx : ASTContext) (input : list FieldDecl)
    (budget : nat) :
  forall st st',
    reachable ctx input st ->
    while_fields budget ctx st = Ok st' ->
    reachable ctx input st' /\ st_fields st' = [].
Proof.
  induction budget as [|budget IH]; intros st st' Hreach Hrun; simpl in Hrun.
  - destruct (st_fields st) eqn:Hq; [|discriminate].
    inversion Hrun; subst. auto.
  - destruct (st_fields st) eqn:Hq.
    + inversion Hrun; subst. auto.
    + apply (IH (loop_body ctx st)); [|exact Hrun].
      apply reach_step; [exact Hreach|]. now rewrite Hq.
Qed.

Lemma loop_measure_initial (input : list FieldDecl) :
  loop_measure (initial_state input) = iteration_bound (length input).
Proof. unfold loop_measure, iteration_bound. simpl. lia. Qed.

Lemma place_field_shorter_or_skipped (ctx : ASTContext) (f : FieldDecl)
    (rest : list FieldDecl) (st : LoopState) :
  let st' := place_field ctx f rest st in
  length (st_fields st') = length rest
  \/ (length (st_fields st') = S (length rest)
      /\ st_skipped st' = S (st_skipped st)
      /\ canFit (or_make (st_currentBucket st) make_Bucket)
                (Width (getTypeInfo ctx (getType f))) = false).
Proof.
  place_field_cases f (or_make (st_currentBucket st) make_Bucket)
                    (Width (getTypeInfo ctx (getType f))); auto.
  right. rewrite length_app. simpl. repeat split; auto; lia.
Qed.

Lemma loop_body_decreases (ctx : ASTContext) (st : LoopState) :
  st_fields st <> [] ->
  loop_measure (loop_body ctx st) < loop_measure st.
Proof.
  destruct (st_fields st) as [|f rest] eqn:Hq; [congruence|intros _].
  rewrite (loop_body_place ctx st Hq).
  unfold loop_measure at 2. rewrite Hq. cbn [length].
  pose proof (place_field_shorter_or_skipped ctx f rest (escape_check st)) as Hplace.
  cbv zeta in Hplace. unfold loop_measure.
  destruct Hplace as [Hlen | (Hlen & Hskip & Hfit)].
  - rewrite Hlen. nia.
  - rewrite Hlen, Hskip.
    destruct (escape_check_cases st) as [(_ & Heq) | (Hlt & Heq)];
      rewrite Heq in *.
    + cbn [st_currentBucket or_make] in Hfit.
      rewrite canFit_make_Bucket in Hfit. discriminate.
    + rewrite Hq in Hlt. cbn [length] in Hlt. lia.
Qed.

Lemma while_fields_terminates (ctx : ASTContext) (budget : nat) :
  forall st,
    loop_measure st <= budget ->
    exists st', while_fields budget ctx st = Ok st' /\ st_fields st' = [].
Proof.
  induction budget as [|budget IH]; intros st Hm.
  - assert (Hq : st_fields st = []).
    { unfold loop_measure in Hm. destruct (st_fields st); [reflexivity|].
      simpl in Hm. lia. }
    exists st. simpl. now rewrite Hq.
  - simpl. destruct (st_fields st) as [|f rest] eqn:Hq.
    + exists st. auto.
    + apply IH.
      assert (Hne : st_fields st <> []) by (rewrite Hq; discriminate).
      pose proof (loop_body_decreases ctx st Hne). lia.
Qed.

Lemma partition_run (ctx : ASTContext) (input : list FieldDecl) :
  exists st,
    while_fields (iteration_bound (length input)) ctx (initial_state input) = Ok st
    /\ reachable ctx input st
    /\ st_fields st = []
    /\ partition ctx input = Ok (sealed_buckets st).
Proof.
  destruct (while_fields_terminates ctx (budget := iteration_bound (length input))
              (initial_state input)) as (st & Hrun & Hq).
  { now rewrite loop_measure_initial. }
  exists st. repeat split; auto.
  - eapply while_fields_reachable; [apply reach_init|exact Hrun].
  - unfold partition. now rewrite Hrun.
Qed.

(** * Null-pointer safety of the bucket list *)

Lemma Forall_snoc (A : Type) (P : A -> Prop) (l : list A) (x : A) :
  Forall P l -> P x -> Forall P (l ++ [x]).
Proof. intros Hl Hx. apply Forall_app. split; [exact Hl|now constructor]. Qed.

Lemma non_null_Some (b : Bucket) : non_null (Some b).
Proof. discriminate. Qed.

Create HintDb randstruct.

#[local] Hint Resolve Forall_snoc non_null_Some : randstruct.

Lemma tie_off_non_null (buckets : list (option Bucket)) (p : option Bucket) :
  Forall non_null buckets -> Forall non_null (tie_off buckets p).
Proof. destruct p; simpl; auto with randstruct. Qed.

#[local] Hint Resolve tie_off_non_null : randstruct.

Lemma escape_check_null_safe (st : LoopState) :
  st_fields st <> [] -> null_safe st -> null_safe (escape_check st).
Proof.
  intros Hq (Hcur & Hall).
  destruct (escape_check_cases st) as [(Hle & ->) | (_ & ->)]; [|now split].
  split; cbn [st_skipped st_buckets]; [lia|].
  apply Forall_snoc; [exact Hall|].
  apply Hcur. destruct (st_fields st); [congruence|simpl in Hle; lia].
Qed.

Lemma place_field_null_safe (ctx : ASTContext) (f : FieldDecl)
    (rest : list FieldDecl) (st : LoopState) :
  null_safe st -> null_safe (place_field ctx f rest st).
Proof.
  intros (Hcur & Hall). unfold null_safe.
  place_field_cases f (or_make (st_currentBucket st) make_Bucket)
                    (Width (getTypeInfo ctx (getType f)));
    (split;
     [ first [exact Hcur | intros Hpos; exfalso; lia | intros _; discriminate]
     | auto with randstruct ]).
Qed.

Lemma reachable_null_safe (ctx : ASTContext) (input : list FieldDecl)
    (st : LoopState) :
  reachable ctx input st -> null_safe st.
Proof.
  induction 1 as [|st Hreach IH Hq].
  - split; simpl; [lia|constructor].
  - destruct (st_fields st) as [|f rest] eqn:Hfs; [congruence|].
    rewrite (loop_body_place ctx st Hfs).
    apply place_field_null_safe, escape_check_null_safe; [congruence|exact IH].
Qed.

Lemma sealed_buckets_non_null (st : LoopState) :
  null_safe st -> Forall non_null (sealed_buckets st).
Proof. intros (_ & Hall). unfold sealed_buckets. auto with randstruct. Qed.

Section FlattenFacts.
Context {RS : RandomSource}.

Lemma flatten_non_null (g : Globals) (buckets : list (option Bucket)) :
  Forall non_null buckets ->
  flatten g buckets = Ok (flat_map (randomized g) buckets).
Proof.
  induction 1 as [|p more Hp _ IH]; [reflexivity|].
  destruct p as [b|]; [|now elim Hp].
  simpl. now rewrite IH.
Qed.

Lemma randomize_Permutation (g : Globals) (b : Bucket) :
  Permutation (fields b) (randomize g b).
Proof.
  unfold randomize. destruct (dynamic_class b); [|reflexivity].
  apply seeded_shuffle_Permutation.
Qed.

Lemma randomized_Permutation (g : Globals) (buckets : list (option Bucket)) :
  Permutation (flat_map contents buckets) (flat_map (randomized g) buckets).
Proof.
  induction buckets as [|p more IH]; [reflexivity|].
  simpl. apply Permutation_app; [|exact IH].
  destruct p; [apply randomize_Permutation|reflexivity].
Qed.

Lemma seeded_shuffle_non_null (seed : string) (buckets : list (option Bucket)) :
  Forall non_null buckets -> Forall non_null (seeded_shuffle seed buckets).
Proof.
  intros Hall. eapply Permutation_Forall; [|exact Hall].
  apply seeded_shuffle_Permutation.
Qed.

(** Once the partition is known, [perfrandomize] is the concatenation of
    the finalized groups in shuffled order. *)
Lemma perfrandomize_flat_map (g : Globals) (ctx : ASTContext)
    (input : list FieldDecl) (buckets : list (option Bucket)) :
  partition ctx input = Ok buckets ->
  Forall non_null buckets ->
  perfrandomize g ctx input
  = Ok (flat_map (randomized g) (seeded_shuffle (RandstructSeed g) buckets)).
Proof.
  intros Hpart Hall. unfold perfrandomize. rewrite Hpart. simpl.
  now apply flatten_non_null, seeded_shuffle_non_null.
Qed.
End FlattenFacts.

Lemma partition_non_null (ctx : ASTContext) (input : list FieldDecl) :
  exists st,
    reachable ctx input st /\ st_fields st = []
    /\ partition ctx input = Ok (sealed_buckets st)
    /\ Forall non_null (sealed_buckets st).
Proof.
  destruct (partition_run ctx input) as (st & _ & Hreach & Hq & Hpart).
  exists st. repeat split; auto.
  now apply sealed_buckets_non_null, (reachable_null_safe Hreach).
Qed.

(** * Conservation of the members: nothing is lost or duplicated *)

Lemma flat_map_contents_tie_off (buckets : list (option Bucket))
    (p : option Bucket) :
  flat_map contents (tie_off buckets p) = flat_map contents buckets ++ contents p.
Proof.
  destruct p as [b|]; simpl.
  - rewrite flat_map_app. simpl. now rewrite app_nil_r.
  - now rewrite app_nil_r.
Qed.

Lemma fields_or_make_Bucket (p : option Bucket) :
  fields (or_make p make_Bucket) = contents p.
Proof. now destruct p. Qed.

Lemma fields_or_make_BitfieldRun (p : option Bucket) :
  fields (or_make p make_BitfieldRun) = contents p.
Proof. now destruct p. Qed.

Lemma occurrences_app (x : FieldDecl) (l1 l2 : list FieldDecl) :
  occurrences x (l1 ++ l2) = occurrences x l1 + occurrences x l2.
Proof. apply count_occ_app. Qed.

Lemma occurrences_cons (x y : FieldDecl) (l : list FieldDecl) :
  occurrences x (y :: l) = occurrences x [y] + occurrences x l.
Proof. apply (occurrences_app x [y] l). Qed.

Lemma occurrences_all_fields (x : FieldDecl) (st : LoopState) :
  occurrences x (all_fields st)
  = occurrences x (flat_map contents (st_buckets st))
    + occurrences x (contents (st_currentBucket st))
    + occurrences x (contents (st_currentBitfieldRun st))
    + occurrences x (st_fields st).
Proof.
  unfold all_fields, sealed_buckets.
  rewrite !occurrences_app, !flat_map_contents_tie_off, !occurrences_app. lia.
Qed.

Lemma escape_check_occurrences (x : FieldDecl) (st : LoopState) :
  occurrences x (all_fields (escape_check st)) = occurrences x (all_fields st).
Proof.
  destruct (escape_check_cases st) as [(_ & ->) | (_ & ->)]; [|reflexivity].
  rewrite !occurrences_all_fields.
  cbn [st_fields st_buckets st_currentBucket st_currentBitfieldRun contents].
  rewrite flat_map_app, occurrences_app. simpl. rewrite app_nil_r.
  change (occurrences x []) with 0. lia.
Qed.

Lemma place_field_occurrences (ctx : ASTContext) (x f : FieldDecl)
    (rest : list FieldDecl) (st : LoopState) :
  st_fields st = f :: rest ->
  occurrences x (all_fields (place_field ctx f rest st))
  = occurrences x (all_fields st).
Proof.
  intros Hq. rewrite !occurrences_all_fields, Hq, (occurrences_cons x f rest).
  place_field_cases f (or_make (st_currentBucket st) make_Bucket)
                    (Width (getTypeInfo ctx (getType f)));
    cbn [contents add fields];
    rewrite ?flat_map_app, ?flat_map_contents_tie_off, ?occurrences_app,
            ?fields_or_make_Bucket, ?fields_or_make_BitfieldRun;
    cbn [flat_map contents fields add];
    rewrite ?app_nil_r, ?occurrences_app, ?fields_or_make_Bucket;
    change (occurrences x []) with 0; lia.
Qed.

Lemma reachable_all_fields (ctx : ASTContext) (input : list FieldDecl)
    (st : LoopState) :
  reachable ctx input st -> Permutation input (all_fields st).
Proof.
  induction 1 as [|st Hreach IH Hq].
  - reflexivity.
  - rewrite IH. apply (Permutation_count_occ FieldDecl_eq_dec). intros x.
    destruct (st_fields st) as [|f rest] eqn:Hfs; [congruence|].
    rewrite (loop_body_place ctx st Hfs).
    change (occurrences x (all_fields st)
            = occurrences x (all_fields (place_field ctx f rest (escape_check st)))).
    rewrite place_field_occurrences, escape_check_occurrences; [reflexivity|].
    now rewrite escape_check_fields.
Qed.

Lemma partition_Permutation (ctx : ASTContext) (input : list FieldDecl) :
  exists buckets,
    partition ctx input = Ok buckets
    /\ Forall non_null buckets
    /\ Permutation input (flat_map contents buckets).
Proof.
  destruct (partition_non_null ctx input) as (st & Hreach & Hq & Hpart & Hall).
  exists (sealed_buckets st). repeat split; auto.
  rewrite (reachable_all_fields Hreach). unfold all_fields.
  now rewrite Hq, app_nil_r.
Qed.

Lemma flat_map_Permutation (A B : Type) (f : A -> list B) (l l' : list A) :
  Permutation l l' -> Permutation (flat_map f l) (flat_map f l').
Proof.
  induction 1; simpl.
  - reflexivity.
  - now apply Permutation_app_head.
  - rewrite !app_assoc. apply Permutation_app_tail, Permutation_app_comm.
  - etransitivity; eassumption.
Qed.

(** ** The permutation law *)

Lemma rearrange_Permutation {RS : RandomSource} (g : Globals)
    (ctx : ASTContext) (input : list FieldDecl) :
  exists output,
    rearrange g ctx input = Ok output /\ Permutation input output.
Proof.
  destruct (partition_Permutation ctx input) as (buckets & Hpart & Hall & Hperm).
  exists (flat_map (randomized g) (seeded_shuffle (RandstructSeed g) buckets)).
  split; [now apply perfrandomize_flat_map|].
  rewrite Hperm, <- randomized_Permutation.
  apply flat_map_Permutation, seeded_shuffle_Permutation.
Qed.

(** C1. For every seed, width oracle and input sequence, [rearrange] returns
    an output that is a permutation of the input: the same number of
    members, every member as many times as in the input, and no duplicate
    unless the input already had one. *)
Theorem rearrange_is_permutation {RS : RandomSource} (g : Globals)
    (ctx : ASTContext) (input : list FieldDecl) :
  exists output,
    rearrange g ctx input = Ok output
    /\ Permutation input output
    /\ length output = length input
    /\ (forall x, count_occ FieldDecl_eq_dec output x
                  = count_occ FieldDecl_eq_dec input x)
    /\ (forall x, In x output <-> In x input)
    /\ (NoDup input -> NoDup output).
Proof.
  destruct (rearrange_Permutation g ctx input) as (output & Hrun & Hout).
  exists output.
  split; [exact Hrun|].
  split; [exact Hout|].
  split; [symmetry; now apply Permutation_length|].
  split; [intros x; symmetry; now apply Permutation_count_occ|].
  split.
  - intros x. split; apply Permutation_in; [now symmetry|exact Hout].
  - intros Hnd. now apply (Permutation_NoDup Hout).
Qed.

(** * Bit-field runs *)

Lemma In_tie_off (buckets : list (option Bucket)) (p q : option Bucket) :
  In p buckets -> In p (tie_off buckets q).
Proof. destruct q; simpl; [|easy]. intros H. apply in_or_app. now left. Qed.

Lemma In_tie_off_last (buckets : list (option Bucket)) (b : Bucket) :
  In (Some b) (tie_off buckets (Some b)).
Proof. simpl. apply in_or_app. right. now left. Qed.

Lemma In_snoc_l (A : Type) (x y : A) (l : list A) : In x l -> In x (l ++ [y]).
Proof. intros H. apply in_or_app. now left. Qed.

#[local] Hint Resolve In_tie_off In_tie_off_last In_snoc_l : randstruct.

Lemma ends_plain_nil : ends_plain [].
Proof. intros l' x H. now destruct l'. Qed.

Lemma ends_plain_tail (x : FieldDecl) (pre : list FieldDecl) :
  ends_plain (x :: pre) -> ends_plain pre.
Proof. intros H l' y ->. now apply (H (x :: l') y). Qed.

Lemma ends_plain_bitfield_head (x : FieldDecl) (pre : list FieldDecl) :
  ends_plain (x :: pre) -> isBitField x = true -> pre <> [].
Proof.
  intros H Hx ->. specialize (H [] x eq_refl). congruence.
Qed.

Lemma starts_plain_snoc (post : list FieldDecl) (x : FieldDecl) :
  starts_plain post -> isBitField x = false -> starts_plain (post ++ [x]).
Proof. now destruct post. Qed.

Lemma escape_check_run_progress (r : list FieldDecl) (st : LoopState) :
  run_progress r st -> run_progress r (escape_check st).
Proof.
  destruct (escape_check_cases st) as [(_ & ->) | (_ & ->)]; [|easy].
  intros [pre post Hq Hpre Hpost Hrun | r1 r2 post b Hr Hrun Hb Hq Hpost
         | b Hin Hb].
  - now apply run_waiting with pre post.
  - now apply run_open with r1 r2 post b.
  - apply run_sealed with b; [|exact Hb]. simpl. auto with randstruct.
Qed.

(** A sealed run stays sealed: [place_field] only appends to [buckets]. *)
Lemma place_field_keeps_buckets (ctx : ASTContext) (f : FieldDecl)
    (rest : list FieldDecl) (st : LoopState) (p : option Bucket) :
  In p (st_buckets st) -> In p (st_buckets (place_field ctx f rest st)).
Proof.
  intros Hin.
  place_field_cases f (or_make (st_currentBucket st) make_Bucket)
                    (Width (getTypeInfo ctx (getType f)));
    auto with randstruct.
Qed.

(** A plain (non-bit-field) front member ties the open run off. *)
Lemma place_field_plain (ctx : ASTContext) (f : FieldDecl)
    (rest : list FieldDecl) (st : LoopState) :
  isBitField f = false ->
  let st' := place_field ctx f rest st in
  st_currentBitfieldRun st' = None
  /\ (forall b, st_currentBitfieldRun st = Some b -> In (Some b) (st_buckets st'))
  /\ (st_fields st' = rest \/ st_fields st' = rest ++ [f]).
Proof.
  intros Hf. cbv zeta. unfold place_field. rewrite Hf.
  destruct (canFit _ _); [destruct (full _)|];
    cbn [st_fields st_buckets st_currentBitfieldRun];
    (split; [reflexivity|split; [|auto]]);
    intros b ->; auto with randstruct.
Qed.

(** A bit-field front member joins the open run, or opens one. *)
Lemma place_field_bitfield (ctx : ASTContext) (f : FieldDecl)
    (rest : list FieldDecl) (st : LoopState) :
  isBitField f = true ->
  place_field ctx f rest st
  = {| st_fields := rest;
       st_buckets := st_buckets st;
       st_currentBucket := st_currentBucket st;
       st_currentBitfieldRun :=
         Some (add (or_make (st_currentBitfieldRun st) make_BitfieldRun) f 1);
       st_skipped := st_skipped st |}.
Proof. intros Hf. unfold place_field. now rewrite Hf. Qed.

Lemma place_field_run_progress (ctx : ASTContext) (r : list FieldDecl)
    (f : FieldDecl) (rest : list FieldDecl) (st : LoopState) :
  r <> [] -> all_bitfields r ->
  st_fields st = f :: rest ->
  run_progress r st -> run_progress r (place_field ctx f rest st).
Proof.
  intros Hne Hbits Hq
    [pre post Hpre_q Hpre Hpost Hrun | r1 r2 post b Hr Hrun Hb Hr2 Hpost
    | b Hin Hb].
  - (* the run is still whole in the queue *)
    rewrite Hq in Hpre_q. destruct pre as [|x pre].
    + (* at the front: the first member opens the run *)
      destruct r as [|y r']; [congruence|].
      simpl in Hpre_q. injection Hpre_q as -> ->.
      inversion Hbits as [|? ? Hy Hr']; subst.
      rewrite (place_field_bitfield ctx _ _ _ Hy), (Hrun eq_refl).
      apply run_open with [y] r' post (add make_BitfieldRun y 1);
        try easy.
    + simpl in Hpre_q. injection Hpre_q as -> ->.
      destruct (isBitField x) eqn:Hx.
      * rewrite (place_field_bitfield ctx _ _ _ Hx).
        apply run_waiting with pre post; auto.
        -- now apply ends_plain_tail with x.
        -- intros ->. now elim (ends_plain_bitfield_head Hpre Hx).
      * destruct (place_field_plain ctx x (pre ++ r ++ post) st Hx)
          as (Hnone & _ & [Hrest | Hrest]).
        -- apply run_waiting with pre post; auto.
           now apply ends_plain_tail with x.
        -- apply run_waiting with pre (post ++ [x]); auto.
           ++ now rewrite Hrest, <- !app_assoc.
           ++ now apply ends_plain_tail with x.
           ++ now apply starts_plain_snoc.
  - (* part of the run is in the open bucket *)
    rewrite Hq in Hr2. destruct Hb as (Hclass & Hfields).
    destruct r2 as [|y r2'].
    + (* the run is complete and a plain member follows: sealed now *)
      simpl in Hr2. subst post. simpl in Hpost.
      destruct (place_field_plain ctx f rest st Hpost) as (_ & Hsealed & _).
      apply run_sealed with b; [now apply Hsealed|].
      split; [exact Hclass|]. now rewrite Hr, app_nil_r.
    + simpl in Hr2. injection Hr2 as -> ->.
      assert (Hy : isBitField y = true).
      { subst r. apply Forall_app in Hbits as (_ & Hbits).
        now inversion Hbits. }
      rewrite (place_field_bitfield ctx _ _ _ Hy), Hrun.
      apply run_open with (r1 ++ [y]) r2' post (add b y 1); try easy.
      * now rewrite Hr, <- app_assoc.
      * split; [exact Hclass|]. simpl. now rewrite Hfields.
  - apply run_sealed with b; [|exact Hb].
    now apply place_field_keeps_buckets.
Qed.

Lemma reachable_run_progress (ctx : ASTContext) (pre r post : list FieldDecl)
    (st : LoopState) :
  maximal_run pre r post ->
  reachable ctx (pre ++ r ++ post) st -> run_progress r st.
Proof.
  intros (Hne & Hbits & Hpre & Hpost).
  induction 1 as [|st Hreach IH Hq].
  - apply run_waiting with pre post; auto.
  - destruct (st_fields st) as [|f rest] eqn:Hfs; [congruence|].
    rewrite (loop_body_place ctx st Hfs).
    apply place_field_run_progress; auto.
    + now rewrite escape_check_fields.
    + now apply escape_check_run_progress.
Qed.

(** Every maximal run of the input is one sealed bit-field-run group. *)
Lemma partition_seals_run (ctx : ASTContext) (pre r post : list FieldDecl) :
  maximal_run pre r post ->
  exists buckets b,
    partition ctx (pre ++ r ++ post) = Ok buckets
    /\ Forall non_null buckets
    /\ In (Some b) buckets
    /\ run_bucket_of r b.
Proof.
  intros Hmax.
  destruct (partition_non_null ctx (pre ++ r ++ post))
    as (st & Hreach & Hq & Hpart & Hall).
  exists (sealed_buckets st).
  destruct (reachable_run_progress Hmax Hreach)
    as [pre' post' Hpre_q _ _ _ | r1 r2 post' b Hr Hrun Hb Hr2 _ | b Hin Hb].
  - destruct Hmax as (Hne & _). rewrite Hq in Hpre_q.
    symmetry in Hpre_q. apply app_eq_nil in Hpre_q as (_ & Hpre_q).
    apply app_eq_nil in Hpre_q as (Hr & _). congruence.
  - rewrite Hq in Hr2. symmetry in Hr2. apply app_eq_nil in Hr2 as (-> & _).
    rewrite app_nil_r in Hr. subst r1.
    exists b. repeat split; auto; try apply Hb.
    unfold sealed_buckets. rewrite Hrun. auto with randstruct.
  - exists b. repeat split; auto; try apply Hb.
    unfold sealed_buckets. auto with randstruct.
Qed.

Section RunsInOutput.
Context {RS : RandomSource}.

Lemma randomize_run_bucket (g : Globals) (r : list FieldDecl) (b : Bucket) :
  run_bucket_of r b -> randomize g b = r.
Proof. intros (Hclass & Hfields). unfold randomize. now rewrite Hclass. Qed.

Lemma flat_map_randomized_split (g : Globals) (b : Bucket)
    (buckets : list (option Bucket)) :
  In (Some b) buckets ->
  exists before after,
    flat_map (randomized g) buckets = before ++ randomize g b ++ after.
Proof.
  intros Hin. apply in_split in Hin as (l1 & l2 & ->).
  exists (flat_map (randomized g) l1), (flat_map (randomized g) l2).
  now rewrite flat_map_app.
Qed.
End RunsInOutput.

(** ** The bit-field adjacency law *)

(** C2. Let [r] be a maximal run of consecutive bit-field members of the
    input [pre ++ r ++ post] (not empty, all bit-fields, no bit-field right
    before or right after it). The Partitioner seals [r] as one bit-field-run
    group whose [randomize] is the identity, and in the output of
    [rearrange] the members of [r] are contiguous and in their original
    order. *)
Theorem bitfield_run_stays_adjacent {RS : RandomSource} (g : Globals)
    (ctx : ASTContext) (pre r post : list FieldDecl) :
  maximal_run pre r post ->
  (exists buckets b,
     partition ctx (pre ++ r ++ post) = Ok buckets
     /\ In (Some b) buckets
     /\ isBitfieldRun b = true
     /\ fields b = r
     /\ randomize g b = r)
  /\ (exists before after,
        rearrange g ctx (pre ++ r ++ post) = Ok (before ++ r ++ after)).
Proof.
  intros Hmax.
  destruct (partition_seals_run ctx Hmax) as (buckets & b & Hpart & Hall & Hin & Hb).
  split.
  - exists buckets, b. repeat split; auto.
    + unfold isBitfieldRun. now rewrite (proj1 Hb).
    + apply Hb.
    + now apply randomize_run_bucket.
  - assert (Hin' : In (Some b) (seeded_shuffle (RandstructSeed g) buckets)).
    { eapply Permutation_in; [apply seeded_shuffle_Permutation|exact Hin]. }
    destruct (flat_map_randomized_split g _ _ Hin') as (before & after & Hflat).
    exists before, after.
    unfold rearrange. rewrite (perfrandomize_flat_map g _ _ Hpart Hall), Hflat.
    now rewrite (randomize_run_bucket g Hb).
Qed.

Lemma bitfield_run_stays_adjacent_witness :
  maximal_run [plain_field "a" "int"] [bit_field "x"; bit_field "y"]
              [plain_field "b" "long"; bit_field "z"]
  /\ exists before after,
       rearrange example_globals example_ctx
         ([plain_field "a" "int"] ++ [bit_field "x"; bit_field "y"]
          ++ [plain_field "b" "long"; bit_field "z"])
       = Ok (before ++ [bit_field "x"; bit_field "y"] ++ after).
Proof.
  assert (Hmax : maximal_run [plain_field "a" "int"]
                   [bit_field "x"; bit_field "y"]
                   [plain_field "b" "long"; bit_field "z"]).
  { split; [discriminate|]. split; [repeat constructor|].
    split; [|reflexivity].
    intros l' x Heq. destruct l' as [|y [|]]; try discriminate.
    now injection Heq as <-. }
  split; [exact Hmax|].
  exact (proj2 (bitfield_run_stays_adjacent example_globals example_ctx Hmax)).
Defined.

(** ** Determinism *)

Section Determinism.
Context {RS : RandomSource}.

(** [rearrange] reads the seed string and nothing else of the globals. *)
Lemma rearrange_reads_seed_only (g1 g2 : Globals) (ctx : ASTContext)
    (input : list FieldDecl) :
  RandstructSeed g1 = RandstructSeed g2 ->
  rearrange g1 ctx input = rearrange g2 ctx input.
Proof.
  intros Hseed. unfold rearrange, perfrandomize.
  destruct (partition ctx input) as [buckets|e]; [|reflexivity].
  simpl. rewrite <- Hseed.
  generalize (seeded_shuffle (RandstructSeed g1) buckets).
  induction l as [|[b|] l IH]; simpl; [reflexivity| |reflexivity].
  rewrite IH. unfold randomize, Bucket_randomize. now rewrite Hseed.
Qed.
End Determinism.

Section ProcessSteps.
Context {RS : RandomSource}.

Lemma set_engine_same (store : nat -> Engine) (rng : nat) (e : Engine) :
  set_engine store rng e rng = e.
Proof. unfold set_engine. now rewrite Nat.eqb_refl. Qed.

(** A shuffle on a local engine is the seeded shuffle, whatever was at
    the address before. *)
Lemma fresh_shuffle_returns (A : Type) (seed : string) (l : list A)
    (p : Process) :
  returns (local_engine seed (fun rng => shuffle_by rng l)) p
          (Ok (seeded_shuffle seed l)).
Proof.
  unfold returns, output_of, process_after, local_engine, shuffle_by.
  cbn [globals engine_at stack_top].
  rewrite set_engine_same. unfold seeded_shuffle.
  now destruct (std_shuffle l (seed_engine seed)).
Qed.

Lemma randomize_step_returns (b : Bucket) (p : Process) :
  returns (randomize_step b) p (Ok (randomize (globals p) b)).
Proof.
  unfold randomize_step, randomize.
  destruct (dynamic_class b); [|now repeat split].
  unfold Bucket_randomize_step, Bucket_randomize.
  exact (fresh_shuffle_returns (RandstructSeed (globals p)) (fields b) p).
Qed.

Lemma flatten_step_returns (buckets : list (option Bucket)) :
  forall p, returns (flatten_step buckets) p (flatten (globals p) buckets).
Proof.
  induction buckets as [|[b|] more IH]; intros p; try (now repeat split).
  destruct (randomize_step_returns b p) as (Hout & Hglobals & Htop).
  specialize (IH (process_after (randomize_step b) p)).
  destruct IH as (Hout' & Hglobals' & Htop').
  unfold returns, output_of, process_after in *.
  cbn [flatten_step flatten]. unfold bind_step.
  destruct (randomize_step b p) as [r p1]. cbn [fst snd] in *. subst r.
  destruct (flatten_step more p1) as [tail p2]. cbn [fst snd] in *.
  rewrite Hglobals in Hout'. rewrite <- Hout'.
  destruct tail as [tail|e]; cbn [bind ret_step fst snd];
    (split; [reflexivity|split; congruence]).
Qed.

(** The step of the process returns what the function of the seed
    returns, and leaves the globals and the stack top alone. *)
Lemma perfrandomize_step_returns (ctx : ASTContext) (input : list FieldDecl)
    (p : Process) :
  returns (perfrandomize_step ctx input) p (perfrandomize (globals p) ctx input).
Proof.
  unfold perfrandomize_step, perfrandomize.
  destruct (partition ctx input) as [buckets|e]; [|now repeat split].
  cbn [bind].
  unfold returns, output_of, process_after, bind_step, read_RandstructSeed,
    local_engine, shuffle_by.
  cbn [globals engine_at stack_top].
  rewrite set_engine_same.
  unfold seeded_shuffle.
  destruct (std_shuffle buckets (seed_engine (RandstructSeed (globals p))))
    as [shuffled e']. cbn [fst].
  match goal with |- context [flatten_step shuffled ?q] =>
    destruct (flatten_step_returns shuffled q) as (Hout & Hglobals & _);
    unfold output_of, process_after in Hout, Hglobals;
    destruct (flatten_step shuffled q) as [r p2] end.
  cbn [fst snd globals stack_top] in *. now repeat split.
Qed.
End ProcessSteps.

(** An engine that is not built afresh tells two calls apart: the second
    shuffle on the object at address 0 starts where the first one left
    it. *)
Example stale_shuffle_not_repeatable :
  output_of (stale_shuffle_step 0 example_long_input) example_process
  <> output_of (stale_shuffle_step 0 example_long_input)
       (process_after (stale_shuffle_step 0 example_long_input)
                      example_process).
Proof. vm_compute. discriminate. Qed.

(** C3. Let two processes hold the same seed string in [RandstructSeed]
    and differ in all the rest: the engine objects an earlier call left in
    storage, the stack top, the auto-select flag. [rearrange] on the same
    input returns the same output sequence in both, and the same again
    when it is called a second time on the process the first call left
    behind; the call leaves the seed as it was. This holds for every seed
    string, the non-empty ones included: every engine the call draws from
    is built from the seed within the call. *)
Theorem rearrange_repeatable {RS : RandomSource} (seed : string)
    (ctx : ASTContext) (input : list FieldDecl) (p1 p2 : Process) :
  RandstructSeed (globals p1) = seed ->
  RandstructSeed (globals p2) = seed ->
  exists output,
    output_of (rearrange_step ctx input) p1 = Ok output
    /\ output_of (rearrange_step ctx input) p2 = Ok output
    /\ output_of (rearrange_step ctx input)
         (process_after (rearrange_step ctx input) p1) = Ok output
    /\ RandstructSeed (globals (process_after (rearrange_step ctx input) p1))
       = seed.
Proof.
  intros H1 H2.
  destruct (rearrange_Permutation (globals p1) ctx input)
    as (output & Hout & _).
  destruct (perfrandomize_step_returns ctx input p1) as (Hr1 & Hg1 & _).
  destruct (perfrandomize_step_returns ctx input p2) as (Hr2 & _ & _).
  destruct (perfrandomize_step_returns ctx input
              (process_after (rearrange_step ctx input) p1))
    as (Hr3 & _ & _).
  unfold rearrange_step in *. fold (rearrange (globals p1) ctx input) in Hr1.
  fold (rearrange (globals p2) ctx input) in Hr2.
  fold (rearrange (globals (process_after (perfrandomize_step ctx input) p1))
                  ctx input) in Hr3.
  exists output. split; [congruence|]. split; [|split].
  - rewrite Hr2, <- Hout. apply rearrange_reads_seed_only. congruence.
  - rewrite Hr3, <- Hout. apply rearrange_reads_seed_only. now rewrite Hg1.
  - now rewrite Hg1.
Qed.

Lemma rearrange_repeatable_witness :
  exists output,
    output_of (rearrange_step example_ctx example_mixed_input) example_process
    = Ok output
    /\ output_of (rearrange_step example_ctx example_mixed_input)
         example_process_later = Ok output
    /\ output_of (rearrange_step example_ctx example_mixed_input)
         (process_after (rearrange_step example_ctx example_mixed_input)
                        example_process) = Ok output
    /\ RandstructSeed
         (globals (process_after (rearrange_step example_ctx example_mixed_input)
                                 example_process)) = "seed".
Proof.
  apply (@rearrange_repeatable lehmer_source "seed" example_ctx
           example_mixed_input example_process example_process_later);
    reflexivity.
Defined.

(** ** Termination of the Partitioner *)

(** C5. For every input sequence and every width oracle the work loop of
    the Partitioner exits with an empty queue within
    [iteration_bound (length input)] iterations, a bound quadratic in the
    number of members; any larger budget gives the same exit, and
    [partition] returns its groups. *)
Theorem partitioner_loop_terminates (ctx : ASTContext)
    (input : list FieldDecl) (extra : nat) :
  exists st,
    while_fields (iteration_bound (length input) + extra) ctx
                 (initial_state input) = Ok st
    /\ st_fields st = []
    /\ partition ctx input = Ok (sealed_buckets st).
Proof.
  destruct (partition_run ctx input) as (st & Hrun & _ & Hq & Hpart).
  exists st. repeat split; auto.
  destruct (while_fields_terminates ctx
              (budget := iteration_bound (length input) + extra)
              (initial_state input)) as (st' & Hrun' & _).
  { rewrite loop_measure_initial. lia. }
  rewrite Hrun'. f_equal.
  clear Hpart Hq.
  revert Hrun Hrun'. generalize (initial_state input) as st0.
  generalize (iteration_bound (length input)) as n.
  induction n as [|n IH]; intros st0 Hrun Hrun'.
  - simpl in Hrun. destruct (st_fields st0) eqn:Hq0; [|discriminate].
    destruct extra; simpl in Hrun'; rewrite Hq0 in Hrun'; congruence.
  - simpl in Hrun, Hrun'. destruct (st_fields st0); [congruence|].
    now apply (IH (loop_body ctx st0)).
Qed.

(** ** The empty input *)

(** C8. On the empty input the Partitioner produces no group at all and
    [rearrange] returns the empty sequence. *)
Theorem rearrange_empty_input {RS : RandomSource} (g : Globals)
    (ctx : ASTContext) :
  partition ctx [] = Ok [] /\ rearrange g ctx [] = Ok [].
Proof. split; reflexivity. Qed.

(** ** No null bucket is ever sealed *)

(** C9. In every state the loop of the Partitioner passes through, a
    positive [skipped] counter comes with an open, non-null generic bucket;
    so the escape seal at the head of the next iteration appends no null
    pointer, neither do the closing tie-offs, and the flattening loop,
    run on the shuffled groups, dereferences no null bucket. *)
Theorem skipped_implies_open_bucket {RS : RandomSource} (g : Globals)
    (ctx : ASTContext) (input : list FieldDecl) (st : LoopState) :
  reachable ctx input st ->
  (0 < st_skipped st -> exists b, st_currentBucket st = Some b)
  /\ Forall non_null (st_buckets st)
  /\ (st_fields st <> [] -> Forall non_null (st_buckets (escape_check st)))
  /\ Forall non_null (sealed_buckets st)
  /\ exists output,
       flatten g (seeded_shuffle (RandstructSeed g) (sealed_buckets st))
       = Ok output.
Proof.
  intros Hreach. pose proof (reachable_null_safe Hreach) as Hsafe.
  split.
  { intros Hpos. destruct Hsafe as (Hcur & _).
    destruct (st_currentBucket st) as [b|]; [now exists b|now elim (Hcur Hpos)]. }
  split; [apply Hsafe|].
  split; [intros Hq; now apply escape_check_null_safe|].
  split; [now apply sealed_buckets_non_null|].
  eexists. apply flatten_non_null, seeded_shuffle_non_null.
  now apply sealed_buckets_non_null.
Qed.

Lemma skipped_implies_open_bucket_witness :
  st_skipped example_skipped_state = 1
  /\ (0 < st_skipped example_skipped_state ->
      exists b, st_currentBucket example_skipped_state = Some b).
Proof.
  split; [reflexivity|].
  refine (proj1 (@skipped_implies_open_bucket lehmer_source example_globals
                   example_ctx example_pair_input example_skipped_state _)).
  apply reach_step; [apply reach_step; [apply reach_init|discriminate]|discriminate].
Defined.

(** * What each kind of bucket holds *)

Lemma holds_well_kinded_generic (p : option Bucket) :
  holds generic_bucket p -> holds well_kinded p.
Proof. destruct p; simpl; [now left|trivial]. Qed.

Lemma holds_well_kinded_run (p : option Bucket) :
  holds run_bucket p -> holds well_kinded p.
Proof. destruct p; simpl; [now right|trivial]. Qed.

Lemma tie_off_holds (P : Bucket -> Prop) (buckets : list (option Bucket))
    (p : option Bucket) :
  Forall (holds P) buckets -> holds P p -> Forall (holds P) (tie_off buckets p).
Proof. destruct p; simpl; auto with randstruct. Qed.

Lemma generic_bucket_add (p : option Bucket) (f : FieldDecl) (sz : N) :
  holds generic_bucket p -> isBitField f = false ->
  generic_bucket (add (or_make p make_Bucket) f sz).
Proof.
  intros Hp Hf. destruct p as [b|]; simpl in *.
  - destruct Hp as (Hclass & Hfields). split; [exact Hclass|].
    simpl. now apply Forall_snoc.
  - split; [reflexivity|]. now repeat constructor.
Qed.

Lemma run_bucket_add (p : option Bucket) (f : FieldDecl) (sz : N) :
  holds run_bucket p -> isBitField f = true ->
  run_bucket (add (or_make p make_BitfieldRun) f sz).
Proof.
  intros Hp Hf. destruct p as [b|]; simpl in *.
  - destruct Hp as (Hclass & Hfields). split; [exact Hclass|].
    simpl. now apply Forall_snoc.
  - split; [reflexivity|]. now repeat constructor.
Qed.

Lemma escape_check_kinds_kept (st : LoopState) :
  kinds_kept st -> kinds_kept (escape_check st).
Proof.
  intros (Hall & Hcur & Hrun).
  destruct (escape_check_cases st) as [(_ & ->) | (_ & ->)]; [|now repeat split].
  repeat split; simpl; auto.
  apply Forall_snoc; [exact Hall|now apply holds_well_kinded_generic].
Qed.

Lemma place_field_kinds_kept (ctx : ASTContext) (f : FieldDecl)
    (rest : list FieldDecl) (st : LoopState) :
  kinds_kept st -> kinds_kept (place_field ctx f rest st).
Proof.
  intros (Hall & Hcur & Hrun). unfold kinds_kept.
  pose proof (tie_off_holds _ Hall (holds_well_kinded_run _ Hrun)) as Htied.
  place_field_cases f (or_make (st_currentBucket st) make_Bucket)
                    (Width (getTypeInfo ctx (getType f)));
    (split; [|split]); cbn [holds]; auto.
  - now apply run_bucket_add.
  - apply Forall_snoc; [exact Htied|]. left. now apply generic_bucket_add.
  - now apply generic_bucket_add.
  - destruct (st_currentBucket st); [exact Hcur|]. split; [reflexivity|constructor].
Qed.

Lemma reachable_kinds_kept (ctx : ASTContext) (input : list FieldDecl)
    (st : LoopState) :
  reachable ctx input st -> kinds_kept st.
Proof.
  induction 1 as [|st Hreach IH Hq].
  - repeat split; simpl; auto.
  - destruct (st_fields st) as [|f rest] eqn:Hfs; [congruence|].
    rewrite (loop_body_place ctx st Hfs).
    now apply place_field_kinds_kept, escape_check_kinds_kept.
Qed.

Lemma partition_well_kinded (ctx : ASTContext) (input : list FieldDecl)
    (buckets : list (option Bucket)) (b : Bucket) :
  partition ctx input = Ok buckets ->
  In (Some b) buckets ->
  well_kinded b.
Proof.
  intros Hpart Hin.
  destruct (partition_non_null ctx input) as (st & Hreach & _ & Hpart' & _).
  rewrite Hpart in Hpart'. injection Hpart' as ->.
  destruct (reachable_kinds_kept Hreach) as (Hall & Hcur & Hrun).
  assert (Hsealed : Forall (holds well_kinded) (sealed_buckets st)).
  { unfold sealed_buckets. apply tie_off_holds; [apply tie_off_holds|]; auto.
    - now apply holds_well_kinded_generic.
    - now apply holds_well_kinded_run. }
  rewrite Forall_forall in Hsealed. exact (Hsealed _ Hin).
Qed.

(** ** The bit-field run's admission *)

(** C7, as stated, fails: a fresh bit-field run admits the plain [int]
    member [i]; its [canFit] never looks at the member. *)
Lemma run_tryAdd_admits_plain_member :
  isBitfieldRun make_BitfieldRun = true
  /\ isBitField (plain_field "i" "int") = false
  /\ tryAdd make_BitfieldRun (plain_field "i" "int") 32
     = (true, {| dynamic_class := BitfieldRunClass; size := 32;
                 fields := [plain_field "i" "int"] |})
  /\ ~ run_tryAdd_selects make_BitfieldRun (plain_field "i" "int") 32.
Proof. repeat split. discriminate. Qed.

(** C7, amended. A bit-field run's [tryAdd] admits every member, bit-field
    or not, at every width. Non-bit-field members are kept out by the
    Partitioner: every bit-field run it seals holds bit-field members only,
    and every generic group plain members only. *)
Theorem run_tryAdd_admits_all (run b : Bucket) (f : FieldDecl) (sz : N)
    (ctx : ASTContext) (input : list FieldDecl)
    (buckets : list (option Bucket)) :
  isBitfieldRun run = true ->
  partition ctx input = Ok buckets ->
  In (Some b) buckets ->
  tryAdd run f sz = (true, add run f sz)
  /\ (isBitfieldRun b = true -> all_bitfields (fields b))
  /\ (isBitfieldRun b = false -> all_plain (fields b)).
Proof.
  intros Hrun Hpart Hin. split.
  - unfold isBitfieldRun in Hrun. unfold tryAdd, canFit.
    now destruct (dynamic_class run).
  - destruct (@partition_well_kinded ctx input buckets b Hpart Hin)
      as [(Hclass & Hfields) | (Hclass & Hfields)];
      unfold isBitfieldRun; rewrite Hclass;
      split; intros Hkind; try discriminate; auto.
Qed.

Lemma run_tryAdd_admits_all_witness :
  partition example_ctx [bit_field "x"; bit_field "y"; plain_field "i" "int"]
  = Ok [Some example_run_xy;
        Some {| dynamic_class := BucketBase; size := 32;
                fields := [plain_field "i" "int"] |}]
  /\ tryAdd make_BitfieldRun (plain_field "i" "int") 32
     = (true, add make_BitfieldRun (plain_field "i" "int") 32)
  /\ (isBitfieldRun example_run_xy = true ->
      all_bitfields (fields example_run_xy)).
Proof.
  split; [reflexivity|].
  destruct (@run_tryAdd_admits_all make_BitfieldRun example_run_xy
              (plain_field "i" "int") 32 example_ctx
              [bit_field "x"; bit_field "y"; plain_field "i" "int"]
              [Some example_run_xy;
               Some {| dynamic_class := BucketBase; size := 32;
                       fields := [plain_field "i" "int"] |}])
    as (Hadd & Hrun & _); [reflexivity | reflexivity | left; reflexivity |].
  split; [exact Hadd|exact Hrun].
Defined.

(** ** The bit-field run and [full] *)

Lemma run_after_from_size (l : list FieldDecl) :
  forall b,
    size (run_after_from b l)
    = ((size b + N.of_nat (length l)) mod SIZE_MODULUS)%N
    \/ (l = [] /\ run_after_from b l = b).
Proof.
  induction l as [|f l IH]; intros b; [now right|left].
  change (run_after_from b (f :: l)) with (run_after_from (add b f 1) l).
  destruct (IH (add b f 1)) as [-> | (-> & ->)]; cbn [size add length].
  - unfold size_add. rewrite N.Div0.add_mod_idemp_l. f_equal. lia.
  - unfold size_add. f_equal.
Qed.

Lemma run_after_size (l : list FieldDecl) :
  (N.of_nat (length l) < SIZE_MODULUS)%N ->
  size (run_after l) = N.of_nat (length l).
Proof.
  intros Hlt. unfold run_after.
  destruct (run_after_from_size l make_BitfieldRun) as [-> | (-> & ->)];
    [|reflexivity].
  cbn [size make_BitfieldRun]. now rewrite N.add_0_l, N.mod_small.
Qed.

Lemma run_after_from_fields (l : list FieldDecl) :
  forall b, fields (run_after_from b l) = fields b ++ l
            /\ dynamic_class (run_after_from b l) = dynamic_class b.
Proof.
  induction l as [|f l IH]; intros b; simpl.
  - now rewrite app_nil_r.
  - destruct (IH (add b f 1)) as (-> & ->). simpl.
    now rewrite <- app_assoc.
Qed.

(** On bit-fields only, the loop keeps adding to the one open run. *)
Lemma while_fields_bitfields (ctx : ASTContext) (l : list FieldDecl) :
  all_bitfields l ->
  forall (budget : nat) (b : Bucket) (buckets : list (option Bucket))
         (cur : option Bucket),
    length l <= budget ->
    while_fields budget ctx
      {| st_fields := l; st_buckets := buckets; st_currentBucket := cur;
         st_currentBitfieldRun := Some b; st_skipped := 0 |}
    = Ok {| st_fields := []; st_buckets := buckets; st_currentBucket := cur;
            st_currentBitfieldRun := Some (run_after_from b l);
            st_skipped := 0 |}.
Proof.
  induction 1 as [|f l Hf _ IH]; intros budget b buckets cur Hle.
  - now destruct budget.
  - destruct budget as [|budget]; [simpl in Hle; lia|].
    cbn [while_fields st_fields]. unfold loop_body, escape_check.
    cbn [st_fields st_skipped length Nat.leb].
    rewrite (place_field_bitfield ctx _ _ _ Hf).
    cbn [st_currentBitfieldRun st_buckets st_currentBucket st_skipped or_make].
    apply IH. simpl in Hle. lia.
Qed.

Lemma partition_bitfields (ctx : ASTContext) (l : list FieldDecl) :
  all_bitfields l -> l <> [] ->
  partition ctx l = Ok [Some (run_after l)].
Proof.
  intros Hall Hne. destruct l as [|f l]; [congruence|].
  inversion Hall as [|? ? Hf Hl]; subst.
  unfold partition, iteration_bound, initial_state.
  cbn [length Nat.mul Nat.add while_fields st_fields].
  unfold loop_body, escape_check.
  cbn [st_fields st_skipped length Nat.leb].
  rewrite (place_field_bitfield ctx _ _ _ Hf).
  cbn [st_currentBitfieldRun st_buckets st_currentBucket st_skipped or_make].
  rewrite (while_fields_bitfields ctx Hl); [reflexivity|nia].
Qed.

(** C6, as stated, fails: [full] is not virtual, and each bit-field counts
    one unit, so a run of sixty-four bit-fields reports full. *)
Lemma bitfield_run_of_64_is_full :
  all_bitfields (repeat (bit_field "x") 64)
  /\ isBitfieldRun (run_after (repeat (bit_field "x") 64)) = true
  /\ full (run_after (repeat (bit_field "x") 64)) = true
  /\ ~ run_never_full (repeat (bit_field "x") 64).
Proof.
  assert (Hall : all_bitfields (repeat (bit_field "x") 64)).
  { apply Forall_forall. intros f Hf. now rewrite (repeat_spec _ _ _ Hf). }
  repeat split; try exact Hall; try (vm_compute; reflexivity).
  intros Hclaim. specialize (Hclaim Hall). vm_compute in Hclaim. discriminate.
Qed.

(** C6, amended. A bit-field run to which fewer than sixty-four bit-fields
    have been added answers [full] with false, and with true from the
    sixty-fourth on. The Partitioner never asks: an input of bit-fields
    only, however long, ends up in exactly one sealed bit-field run, in its
    original order. *)
Theorem bitfield_run_full_from_64 (ctx : ASTContext) (l : list FieldDecl) :
  all_bitfields l ->
  (N.of_nat (length l) < SIZE_MODULUS)%N ->
  full (run_after l) = (64 <=? length l)%nat
  /\ isBitfieldRun (run_after l) = true
  /\ fields (run_after l) = l
  /\ (l <> [] -> partition ctx l = Ok [Some (run_after l)]).
Proof.
  intros Hall Hlt.
  destruct (run_after_from_fields l make_BitfieldRun) as (Hfields & Hclass).
  split; [|split; [|split]].
  - unfold full. rewrite (run_after_size l Hlt). unfold CACHE_LINE.
    destruct (Nat.leb_spec 64 (length l)) as [Hle | Hgt].
    + apply N.leb_le. lia.
    + apply N.leb_gt. lia.
  - unfold isBitfieldRun, run_after. now rewrite Hclass.
  - exact Hfields.
  - now apply partition_bitfields.
Qed.

Lemma bitfield_run_full_from_64_witness :
  full (run_after (repeat (bit_field "x") 70)) = true
  /\ partition example_ctx (repeat (bit_field "x") 70)
     = Ok [Some (run_after (repeat (bit_field "x") 70))].
Proof.
  assert (Hall : all_bitfields (repeat (bit_field "x") 70)).
  { apply Forall_forall. intros f Hf. now rewrite (repeat_spec _ _ _ Hf). }
  assert (Hlt : (N.of_nat (length (repeat (bit_field "x") 70)) < SIZE_MODULUS)%N).
  { vm_compute. reflexivity. }
  destruct (bitfield_run_full_from_64 example_ctx Hall Hlt)
    as (Hfull & _ & _ & Hpart).
  split; [exact Hfull|]. apply Hpart. discriminate.
Defined.

(** ** One seed, one index permutation per length *)

Section SameSeed.
Context {RS : RandomSource}.

Lemma shuffle_indices_Permutation (seed : string) (n : nat) :
  Permutation (seq 0 n) (shuffle_indices seed n).
Proof. apply seeded_shuffle_Permutation. Qed.

Lemma generic_randomize_by_indices (g : Globals) (b : Bucket) :
  isBitfieldRun b = false ->
  map Some (randomize g b)
  = map (nth_error (fields b))
        (shuffle_indices (RandstructSeed g) (length (fields b))).
Proof.
  unfold isBitfieldRun, randomize, Bucket_randomize.
  destruct (dynamic_class b); [intros _|discriminate].
  apply seeded_shuffle_by_indices.
Qed.
End SameSeed.

(** C10. In one call of [rearrange] every shuffle starts from an engine
    built afresh from the seed global: the group-order shuffle and the
    shuffle inside each generic group. Hence two generic groups of the
    partition with the same number of fields are rearranged by one and the
    same index permutation, the one the seed gives for that length; and the
    group order itself is the index permutation the seed gives for the
    number of groups. *)
Theorem same_size_groups_same_permutation {RS : RandomSource} (g : Globals)
    (ctx : ASTContext) (input : list FieldDecl)
    (buckets : list (option Bucket)) (b1 b2 : Bucket) :
  partition ctx input = Ok buckets ->
  In (Some b1) buckets ->
  In (Some b2) buckets ->
  isBitfieldRun b1 = false ->
  isBitfieldRun b2 = false ->
  length (fields b1) = length (fields b2) ->
  (randomize g b1 = fst (std_shuffle (fields b1) (seed_engine (RandstructSeed g)))
   /\ randomize g b2 = fst (std_shuffle (fields b2) (seed_engine (RandstructSeed g)))
   /\ rearrange g ctx input
      = flatten g (fst (std_shuffle buckets (seed_engine (RandstructSeed g)))))
  /\ (exists indices,
        indices = shuffle_indices (RandstructSeed g) (length (fields b1))
        /\ Permutation (seq 0 (length (fields b1))) indices
        /\ map Some (randomize g b1) = map (nth_error (fields b1)) indices
        /\ map Some (randomize g b2) = map (nth_error (fields b2)) indices)
  /\ map Some (seeded_shuffle (RandstructSeed g) buckets)
     = map (nth_error buckets)
           (shuffle_indices (RandstructSeed g) (length buckets)).
Proof.
  intros Hpart _ _ Hb1 Hb2 Hlen. split; [|split].
  - unfold rearrange, perfrandomize. rewrite Hpart.
    unfold isBitfieldRun in Hb1, Hb2. unfold randomize.
    destruct (dynamic_class b1); [|discriminate].
    destruct (dynamic_class b2); [|discriminate].
    repeat split; reflexivity.
  - exists (shuffle_indices (RandstructSeed g) (length (fields b1))).
    split; [reflexivity|]. split; [apply shuffle_indices_Permutation|].
    split; [now apply generic_randomize_by_indices|].
    rewrite Hlen. now apply generic_randomize_by_indices.
  - apply seeded_shuffle_by_indices.
Qed.

Lemma same_size_groups_same_permutation_witness :
  partition example_ctx
    [plain_field "a" "int"; plain_field "b" "int";
     plain_field "c" "int"; plain_field "d" "int"]
  = Ok [Some example_group_ab; Some example_group_cd]
  /\ exists indices,
       indices = shuffle_indices (RandstructSeed example_globals) 2
       /\ Permutation (seq 0 2) indices
       /\ map Some (randomize example_globals example_group_ab)
          = map (nth_error (fields example_group_ab)) indices
       /\ map Some (randomize example_globals example_group_cd)
          = map (nth_error (fields example_group_cd)) indices.
Proof.
  split; [reflexivity|].
  refine (proj1 (proj2 (@same_size_groups_same_permutation lehmer_source
            example_globals example_ctx
            [plain_field "a" "int"; plain_field "b" "int";
             plain_field "c" "int"; plain_field "d" "int"]
            [Some example_group_ab; Some example_group_cd]
            example_group_ab example_group_cd _ _ _ _ _ _)));
    [reflexivity | left; reflexivity | right; left; reflexivity
    | reflexivity | reflexivity | reflexivity].
Defined.

(** ** The capacity of a generic group *)

(** C4 on the input [int z[0]; __int128 big]: the zero-width member leaves
    [size] at zero, so [empty] still answers true with [z] inside and the
    128-bit member is admitted next to it. The one generic group the
    Partitioner seals holds two members of accumulated width 128, and its
    first member is not oversized: the capacity law fails on it. *)
Theorem zero_width_member_defeats_capacity :
  partition example_ctx zero_width_input = Ok [Some zero_width_group]
  /\ isBitfieldRun zero_width_group = false
  /\ map (field_width example_ctx) (fields zero_width_group) = [0%N; 128%N]
  /\ accumulated_width example_ctx (fields zero_width_group) = 128%N
  /\ ~ capacity_law example_ctx zero_width_group.
Proof.
  repeat split.
  intros [Hle | (f & Hf & _)]; [|discriminate].
  vm_compute in Hle. now apply Hle.
Qed.

Lemma accumulated_width_snoc (ctx : ASTContext) (l : list FieldDecl)
    (f : FieldDecl) :
  accumulated_width ctx (l ++ [f])
  = (accumulated_width ctx l + field_width ctx f)%N.
Proof.
  unfold accumulated_width. induction l as [|x l IH]; simpl; [lia|].
  rewrite IH. lia.
Qed.

Lemma open_within_capacity_or_make (ctx : ASTContext) (p : option Bucket) :
  holds (open_within_capacity ctx) p ->
  open_within_capacity ctx (or_make p make_Bucket).
Proof.
  destruct p as [b|]; [easy|]. intros _. now repeat split.
Qed.

Lemma open_within_capacity_law (ctx : ASTContext) (p : option Bucket) :
  holds (open_within_capacity ctx) p -> holds (generic_capacity_law ctx) p.
Proof.
  destruct p as [b|]; [|easy]. intros (_ & Hsize & Hlt & _) _. left.
  rewrite <- Hsize. lia.
Qed.

(** Admission of an ordinary width into an open bucket. *)
Lemma add_within_capacity (ctx : ASTContext) (b : Bucket) (f : FieldDecl) :
  open_within_capacity ctx b ->
  ordinary_width (field_width ctx f) ->
  canFit b (field_width ctx f) = true ->
  capacity_law ctx (add b f (field_width ctx f))
  /\ (full (add b f (field_width ctx f)) = false ->
      open_within_capacity ctx (add b f (field_width ctx f))).
Proof.
  intros (Hclass & Hsize & Hlt & Hzero) (Hpos & Hsmall) Hfit.
  unfold canFit in Hfit. rewrite Hclass in Hfit.
  unfold Bucket_canFit, empty in Hfit.
  unfold capacity_law, open_within_capacity, full.
  cbn [add fields size dynamic_class].
  rewrite accumulated_width_snoc, <- Hsize.
  assert (Hno_wrap : size_add (size b) (field_width ctx f)
                     = (size b + field_width ctx f)%N).
  { unfold size_add, SIZE_MODULUS. apply N.mod_small.
    unfold CACHE_LINE in Hlt.
    assert (2 ^ 64 = 2 * 2 ^ 63)%N by reflexivity. lia. }
  rewrite Hno_wrap in *. unfold CACHE_LINE in *.
  destruct (N.eqb_spec (size b) 0) as [Hempty | Hfilled].
  - rewrite (Hzero Hempty), Hempty, N.add_0_l. cbn [app]. split.
    + destruct (N.le_gt_cases (field_width ctx f) 64); [now left|right].
      now exists f.
    + intros Hfull. apply N.leb_gt in Hfull. repeat split; auto; lia.
  - simpl in Hfit. apply N.leb_le in Hfit. split; [now left|].
    intros Hfull. apply N.leb_gt in Hfull. repeat split; auto; lia.
Qed.

Lemma escape_check_capacity_kept (ctx : ASTContext) (st : LoopState) :
  capacity_kept ctx st -> capacity_kept ctx (escape_check st).
Proof.
  intros (Hall & Hcur).
  destruct (escape_check_cases st) as [(_ & ->) | (_ & ->)]; [|now split].
  split; simpl; [|trivial].
  apply Forall_snoc; [exact Hall|now apply open_within_capacity_law].
Qed.

Lemma place_field_capacity_kept (ctx : ASTContext) (f : FieldDecl)
    (rest : list FieldDecl) (st : LoopState) :
  (isBitField f = false -> ordinary_width (field_width ctx f)) ->
  kinds_kept st ->
  capacity_kept ctx st -> capacity_kept ctx (place_field ctx f rest st).
Proof.
  intros Hwidth (_ & _ & Hrun) (Hall & Hcur). unfold capacity_kept.
  assert (Htied : Forall (holds (generic_capacity_law ctx))
                    (tie_off (st_buckets st) (st_currentBitfieldRun st))).
  { apply tie_off_holds; [exact Hall|].
    destruct (st_currentBitfieldRun st) as [r|]; [|easy].
    destruct Hrun as (Hclass & _). intros Hgeneric.
    unfold isBitfieldRun in Hgeneric. now rewrite Hclass in Hgeneric. }
  pose proof (open_within_capacity_or_make ctx _ Hcur) as Hopen.
  place_field_cases f (or_make (st_currentBucket st) make_Bucket)
                    (Width (getTypeInfo ctx (getType f)));
    fold (field_width ctx f) in *;
    (split; cbn [holds]; auto).
  - apply Forall_snoc; [exact Htied|]. intros _.
    now apply add_within_capacity; auto.
  - now apply add_within_capacity; auto.
Qed.

Lemma reachable_queue_from_input (ctx : ASTContext) (input : list FieldDecl)
    (st : LoopState) (f : FieldDecl) :
  reachable ctx input st -> In f (st_fields st) -> In f input.
Proof.
  intros Hreach Hin.
  apply (Permutation_in f (Permutation_sym (reachable_all_fields Hreach))).
  unfold all_fields. apply in_or_app. now right.
Qed.

Lemma reachable_capacity_kept (ctx : ASTContext) (input : list FieldDecl)
    (st : LoopState) :
  (forall f, In f input -> isBitField f = false ->
             ordinary_width (field_width ctx f)) ->
  reachable ctx input st -> capacity_kept ctx st.
Proof.
  intros Hwidths. induction 1 as [|st Hreach IH Hq].
  - split; simpl; auto.
  - destruct (st_fields st) as [|f rest] eqn:Hfs; [congruence|].
    rewrite (loop_body_place ctx st Hfs).
    apply place_field_capacity_kept.
    + apply Hwidths, (reachable_queue_from_input f Hreach).
      rewrite Hfs. now left.
    + now apply escape_check_kinds_kept, (reachable_kinds_kept Hreach).
    + now apply escape_check_capacity_kept.
Qed.

(** The capacity law does hold as long as no plain member has width zero
    (and none is wide enough for [size] to wrap around). *)
Lemma capacity_law_ordinary_widths (ctx : ASTContext) (input : list FieldDecl)
    (buckets : list (option Bucket)) (b : Bucket) :
  (forall f, In f input -> isBitField f = false ->
             ordinary_width (field_width ctx f)) ->
  partition ctx input = Ok buckets ->
  In (Some b) buckets ->
  isBitfieldRun b = false ->
  capacity_law ctx b.
Proof.
  intros Hwidths Hpart Hin Hgeneric.
  destruct (partition_non_null ctx input) as (st & Hreach & _ & Hpart' & _).
  rewrite Hpart in Hpart'. injection Hpart' as ->.
  destruct (reachable_capacity_kept Hwidths Hreach) as (Hall & Hcur).
  destruct (reachable_kinds_kept Hreach) as (_ & _ & Hrun).
  assert (Hsealed : Forall (holds (generic_capacity_law ctx)) (sealed_buckets st)).
  { unfold sealed_buckets. apply tie_off_holds; [apply tie_off_holds|]; auto.
    - now apply open_within_capacity_law.
    - destruct (st_currentBitfieldRun st) as [r|]; [|easy].
      destruct Hrun as (Hclass & _). intros Hg.
      unfold isBitfieldRun in Hg. now rewrite Hclass in Hg. }
  rewrite Forall_forall in Hsealed. exact (Hsealed _ Hin Hgeneric).
Qed.

(** * The scenarios of the specification, evaluated *)

(** Four plain members of 32 bits: two groups of two, 64 bits each. *)
Example partition_four_ints :
  partition example_ctx
    [plain_field "a" "int"; plain_field "b" "int";
     plain_field "c" "int"; plain_field "d" "int"]
  = Ok [Some example_group_ab; Some example_group_cd].
Proof. reflexivity. Qed.

(** Two bit-fields and an [int]: one run in the original order, sealed by
    the [int], and one generic group. *)
Example partition_bitfields_then_int :
  partition example_ctx [bit_field "x"; bit_field "y"; plain_field "i" "int"]
  = Ok [Some example_run_xy;
        Some {| dynamic_class := BucketBase; size := 32;
                fields := [plain_field "i" "int"] |}].
Proof. reflexivity. Qed.

(** One member of 128 bits: admitted into the empty bucket, which is full
    at once. *)
Example partition_oversized_member :
  partition example_ctx [plain_field "big" "__int128"]
  = Ok [Some {| dynamic_class := BucketBase; size := 128;
                fields := [plain_field "big" "__int128"] |}].
Proof. reflexivity. Qed.

(** A member skipped behind a bucket it does not fit: the bit-field met in
    between is placed, the escape seal ties the bucket off, and the skipped
    member opens the next one. *)
Example partition_skip_and_escape :
  partition example_ctx
    [plain_field "a" "struct pair"; plain_field "b" "struct pair";
     bit_field "x"; plain_field "c" "char"; bit_field "y"]
  = Ok [Some {| dynamic_class := BitfieldRunClass; size := 1;
                fields := [bit_field "x"] |};
        Some {| dynamic_class := BucketBase; size := 48;
                fields := [plain_field "a" "struct pair"; plain_field "c" "char"] |};
        Some {| dynamic_class := BitfieldRunClass; size := 1;
                fields := [bit_field "y"] |};
        Some {| dynamic_class := BucketBase; size := 40;
                fields := [plain_field "b" "struct pair"] |}].
Proof. reflexivity. Qed.

(** * Further properties *)

(** ** The full randomizer *)

(** X1. The free function [randomize] returns a permutation of the member
    list it is given: the same length, every member as often as before;
    it is the index permutation the seed gives for that length. *)
Theorem randomize_decls_is_permutation {RS : RandomSource} (g : Globals)
    (input : list FieldDecl) :
  Permutation input (randomize_decls g input)
  /\ length (randomize_decls g input) = length input
  /\ (forall x, count_occ FieldDecl_eq_dec (randomize_decls g input) x
                = count_occ FieldDecl_eq_dec input x)
  /\ map Some (randomize_decls g input)
     = map (nth_error input)
           (shuffle_indices (RandstructSeed g) (length input)).
Proof.
  assert (Hperm : Permutation input (randomize_decls g input))
    by apply seeded_shuffle_Permutation.
  split; [exact Hperm|].
  split; [symmetry; now apply Permutation_length|].
  split; [intros x; symmetry; now apply Permutation_count_occ|].
  apply seeded_shuffle_by_indices.
Qed.

(** ** Groups stay together *)

(** X2. The members of every group the Partitioner seals are contiguous in
    the output of [rearrange]: the output is [before ++ middle ++ after]
    with [middle] a permutation of the group (the group itself for a
    bit-field run). *)
Theorem group_members_stay_together {RS : RandomSource} (g : Globals)
    (ctx : ASTContext) (input : list FieldDecl)
    (buckets : list (option Bucket)) (b : Bucket) :
  partition ctx input = Ok buckets ->
  In (Some b) buckets ->
  exists before middle after,
    rearrange g ctx input = Ok (before ++ middle ++ after)
    /\ Permutation (fields b) middle
    /\ (isBitfieldRun b = true -> middle = fields b).
Proof.
  intros Hpart Hin.
  destruct (partition_non_null ctx input) as (st & _ & _ & Hpart' & Hall).
  rewrite Hpart in Hpart'. injection Hpart' as Heq. rewrite <- Heq in Hall.
  assert (Hin' : In (Some b) (seeded_shuffle (RandstructSeed g) buckets)).
  { eapply Permutation_in; [apply seeded_shuffle_Permutation|exact Hin]. }
  destruct (flat_map_randomized_split g _ _ Hin') as (before & after & Hflat).
  exists before, (randomize g b), after.
  split; [|split].
  - unfold rearrange.
    now rewrite (@perfrandomize_flat_map RS g ctx input buckets Hpart Hall), Hflat.
  - apply randomize_Permutation.
  - unfold isBitfieldRun, randomize.
    destruct (dynamic_class b); [discriminate|reflexivity].
Qed.

Lemma group_members_stay_together_witness :
  exists before middle after,
    rearrange example_globals example_ctx
      [plain_field "a" "int"; plain_field "b" "int";
       plain_field "c" "int"; plain_field "d" "int"]
    = Ok (before ++ middle ++ after)
    /\ Permutation (fields example_group_cd) middle
    /\ (isBitfieldRun example_group_cd = true -> middle = fields example_group_cd).
Proof.
  apply (@group_members_stay_together lehmer_source example_globals example_ctx
           [plain_field "a" "int"; plain_field "b" "int";
            plain_field "c" "int"; plain_field "d" "int"]
           [Some example_group_ab; Some example_group_cd] example_group_cd);
    [reflexivity | right; left; reflexivity].
Defined.

(** ** No empty group *)

Lemma canFit_false_not_fresh (p : option Bucket) (sz : N) :
  canFit (or_make p make_Bucket) sz = false -> exists b, p = Some b.
Proof.
  destruct p as [b|]; [now exists b|]. simpl. discriminate.
Qed.

Lemma inhabited_add (b : Bucket) (f : FieldDecl) (sz : N) :
  inhabited (add b f sz).
Proof. unfold inhabited. simpl. now destruct (fields b). Qed.

Lemma escape_check_groups_inhabited (st : LoopState) :
  groups_inhabited st -> groups_inhabited (escape_check st).
Proof.
  intros (Hall & Hcur & Hrun).
  destruct (escape_check_cases st) as [(_ & ->) | (_ & ->)]; [|now repeat split].
  repeat split; simpl; auto with randstruct.
Qed.

Lemma place_field_groups_inhabited (ctx : ASTContext) (f : FieldDecl)
    (rest : list FieldDecl) (st : LoopState) :
  groups_inhabited st -> groups_inhabited (place_field ctx f rest st).
Proof.
  intros (Hall & Hcur & Hrun). unfold groups_inhabited.
  pose proof (tie_off_holds _ Hall Hrun) as Htied.
  place_field_cases f (or_make (st_currentBucket st) make_Bucket)
                    (Width (getTypeInfo ctx (getType f)));
    (split; [|split]); cbn [holds]; auto using inhabited_add.
  - apply Forall_snoc; [exact Htied|apply inhabited_add].
  - match goal with H : canFit _ _ = false |- _ =>
      destruct (canFit_false_not_fresh _ _ H) as (b & Hb) end.
    now rewrite Hb in *.
Qed.

Lemma reachable_groups_inhabited (ctx : ASTContext) (input : list FieldDecl)
    (st : LoopState) :
  reachable ctx input st -> groups_inhabited st.
Proof.
  induction 1 as [|st Hreach IH Hq].
  - repeat split; simpl; auto.
  - destruct (st_fields st) as [|f rest] eqn:Hfs; [congruence|].
    rewrite (loop_body_place ctx st Hfs).
    now apply place_field_groups_inhabited, escape_check_groups_inhabited.
Qed.

Lemma length_flat_map_inhabited (buckets : list (option Bucket)) :
  Forall (fun p => contents p <> []) buckets ->
  length buckets <= length (flat_map contents buckets).
Proof.
  induction 1 as [|p more Hp _ IH]; [reflexivity|].
  simpl. rewrite length_app. destruct (contents p); [congruence|simpl; lia].
Qed.

(** X3. The Partitioner seals no empty group: every pointer in its result
    is non-null and every group holds at least one member. Together the
    groups hold the input, so there are at most as many groups as members,
    and every member of a group is a member of the input. *)
Theorem partition_groups_inhabited (ctx : ASTContext) (input : list FieldDecl) :
  exists buckets,
    partition ctx input = Ok buckets
    /\ Forall non_null buckets
    /\ (forall b, In (Some b) buckets -> fields b <> [])
    /\ (forall b f, In (Some b) buckets -> In f (fields b) -> In f input)
    /\ Permutation input (flat_map contents buckets)
    /\ length buckets <= length input.
Proof.
  destruct (partition_non_null ctx input) as (st & Hreach & Hq & Hpart & Hnn).
  exists (sealed_buckets st).
  destruct (reachable_groups_inhabited Hreach) as (Hall & Hcur & Hrun).
  assert (Hsealed : Forall (holds inhabited) (sealed_buckets st)).
  { unfold sealed_buckets. now apply tie_off_holds; [apply tie_off_holds|]. }
  assert (Hperm : Permutation input (flat_map contents (sealed_buckets st))).
  { rewrite (reachable_all_fields Hreach). unfold all_fields.
    now rewrite Hq, app_nil_r. }
  split; [exact Hpart|]. split; [exact Hnn|].
  split; [|split; [|split; [exact Hperm|]]].
  - intros b Hin. rewrite Forall_forall in Hsealed. exact (Hsealed _ Hin).
  - intros b f Hin Hf. apply (Permutation_in f (Permutation_sym Hperm)).
    apply in_flat_map. now exists (Some b).
  - rewrite (Permutation_length Hperm). apply length_flat_map_inhabited.
    rewrite Forall_forall in *. intros p Hp.
    specialize (Hsealed p Hp). specialize (Hnn p Hp).
    destruct p as [b|]; [exact Hsealed|now elim Hnn].
Qed.

(** ** Every sealed run is a maximal run of the input *)

Lemma In_tie_off_inv (buckets : list (option Bucket)) (p q : option Bucket) :
  In p (tie_off buckets q) -> In p buckets \/ (p = q /\ q <> None).
Proof.
  destruct q as [b|]; simpl; [|now left].
  intros Hin. apply in_app_or in Hin as [Hin | [<- | []]]; [now left|].
  right. split; [reflexivity|discriminate].
Qed.

Lemma In_snoc_inv (A : Type) (x y : A) (l : list A) :
  In x (l ++ [y]) -> In x l \/ x = y.
Proof.
  intros Hin. apply in_app_or in Hin as [Hin | [<- | []]]; auto.
Qed.

(** Where a bucket of the list comes from after [place_field]: it was
    there, or it is the run a plain member tied off, or it is the generic
    bucket that member filled. *)
Lemma place_field_buckets_origin (ctx : ASTContext) (f : FieldDecl)
    (rest : list FieldDecl) (st : LoopState) (p : option Bucket) :
  In p (st_buckets (place_field ctx f rest st)) ->
  In p (st_buckets st)
  \/ (isBitField f = false /\ p = st_currentBitfieldRun st /\ p <> None)
  \/ (isBitField f = false
      /\ p = Some (add (or_make (st_currentBucket st) make_Bucket) f
                       (Width (getTypeInfo ctx (getType f))))).
Proof.
  place_field_cases f (or_make (st_currentBucket st) make_Bucket)
                    (Width (getTypeInfo ctx (getType f)));
    intros Hin; auto.
  - apply In_snoc_inv in Hin as [Hin | ->]; [|now right; right].
    apply In_tie_off_inv in Hin as [Hin | (-> & Hnn)]; [now left|].
    right. left. now repeat split.
  - apply In_tie_off_inv in Hin as [Hin | (-> & Hnn)]; [now left|].
    right. left. now repeat split.
  - apply In_tie_off_inv in Hin as [Hin | (-> & Hnn)]; [now left|].
    right. left. now repeat split.
Qed.

Lemma ends_plain_snoc (l : list FieldDecl) (f : FieldDecl) :
  isBitField f = false -> ends_plain (l ++ [f]).
Proof.
  intros Hf l' x Heq. apply app_inj_tail in Heq as (_ & <-). exact Hf.
Qed.

Lemma generic_not_run (b : Bucket) :
  generic_bucket b -> isBitfieldRun b = true -> False.
Proof.
  intros (Hclass & _). unfold isBitfieldRun. now rewrite Hclass.
Qed.

Lemma escape_check_queue_split (input : list FieldDecl) (st : LoopState) :
  kinds_kept st -> queue_split input st -> queue_split input (escape_check st).
Proof.
  intros (_ & Hcur & _) [P U S Hinput Hq HS Hsealed Hrun].
  destruct (escape_check_cases st) as [(_ & ->) | (_ & ->)];
    [|now apply queue_split_intro with P U S].
  apply queue_split_intro with P U S; auto.
  cbn [st_buckets]. intros b Hin Hb.
  apply In_snoc_inv in Hin as [Hin | Heq]; [now apply Hsealed|].
  rewrite <- Heq in Hcur. now elim (generic_not_run Hcur Hb).
Qed.

(** A run tied off by the plain member [f] in front of the rest [U] of the
    input is maximal. *)
Lemma tied_off_run_maximal (P U : list FieldDecl) (b : Bucket) :
  open_run_tracks P U (Some b) ->
  starts_plain U ->
  is_maximal_run_of (P ++ U) (fields b).
Proof.
  intros (P' & -> & Hne & Hbits & Hpre) Hpost.
  exists P', U. split; [now rewrite <- app_assoc|]. now repeat split.
Qed.

Lemma place_field_queue_split (ctx : ASTContext) (input : list FieldDecl)
    (f : FieldDecl) (rest : list FieldDecl) (st : LoopState) :
  kinds_kept st ->
  st_fields st = f :: rest ->
  queue_split input st -> queue_split input (place_field ctx f rest st).
Proof.
  intros (_ & Hcur & _) Hfs [P U S Hinput Hq HS Hsealed Hrun].
  rewrite Hfs in Hq.
  assert (Hplain_step :
    isBitField f = false ->
    (forall r, st_currentBitfieldRun st = Some r ->
               is_maximal_run_of input (fields r)) ->
    forall b, In (Some b) (st_buckets (place_field ctx f rest st)) ->
              isBitfieldRun b = true ->
              is_maximal_run_of input (fields b)).
  { intros Hf Htied b Hin Hb.
    apply place_field_buckets_origin in Hin
      as [Hin | [(_ & Heq & _) | (_ & Heq)]].
    - now apply Hsealed.
    - now apply Htied.
    - injection Heq as ->.
      now elim (generic_not_run
                  (@generic_bucket_add (st_currentBucket st) f _ Hcur Hf) Hb). }
  destruct U as [|u U'].
  - (* the input has been visited: [f] is a re-queued plain member *)
    simpl in Hq. subst S. inversion HS as [|? ? Hf HS']; subst.
    destruct (place_field_plain ctx f rest st Hf) as (Hnone & _ & Hrest).
    apply queue_split_intro with P [] (st_fields (place_field ctx f rest st)).
    + reflexivity.
    + reflexivity.
    + destruct Hrest as [-> | ->]; [exact HS'|].
      now apply Forall_snoc.
    + apply (Hplain_step Hf).
      intros r Hr. rewrite Hr in Hrun. now apply tied_off_run_maximal.
    + rewrite Hnone. now intros Hne.
  - simpl in Hq. injection Hq as -> ->.
    destruct (isBitField u) eqn:Hu.
    + (* a bit-field of the input joins the run *)
      rewrite (place_field_bitfield ctx _ _ _ Hu).
      apply queue_split_intro with (P ++ [u]) U' S; cbn; auto.
      * now rewrite <- app_assoc.
      * destruct (st_currentBitfieldRun st) as [r|]; cbn.
        -- destruct Hrun as (P' & -> & Hne & Hbits & Hpre).
           exists P'. split; [now rewrite <- app_assoc|].
           split; [now destruct (fields r)|].
           split; [now apply Forall_snoc|exact Hpre].
        -- exists P. split; [reflexivity|].
           split; [discriminate|].
           split; [now repeat constructor|].
           apply Hrun. discriminate.
    + (* a plain member of the input ties the run off *)
      assert (Hsealed' :
        forall b, In (Some b) (st_buckets (place_field ctx u (U' ++ S) st)) ->
                  isBitfieldRun b = true -> is_maximal_run_of input (fields b)).
      { apply (Hplain_step eq_refl).
        intros r Hr. rewrite Hr in Hrun. rewrite Hinput.
        now apply tied_off_run_maximal. }
      destruct (place_field_plain ctx u (U' ++ S) st Hu)
        as (Hnone & _ & [Hrest | Hrest]).
      * apply queue_split_intro with (P ++ [u]) U' S; auto.
        -- now rewrite <- app_assoc.
        -- rewrite Hnone. intros _. now apply ends_plain_snoc.
      * apply queue_split_intro with (P ++ [u]) U' (S ++ [u]); auto.
        -- now rewrite <- app_assoc.
        -- now rewrite Hrest, app_assoc.
        -- now apply Forall_snoc.
        -- rewrite Hnone. intros _. now apply ends_plain_snoc.
Qed.

Lemma reachable_queue_split (ctx : ASTContext) (input : list FieldDecl)
    (st : LoopState) :
  reachable ctx input st -> queue_split input st.
Proof.
  induction 1 as [|st Hreach IH Hq].
  - apply queue_split_intro with [] input []; simpl; auto.
    + now rewrite app_nil_r.
    + constructor.
    + intros b [].
    + intros _. apply ends_plain_nil.
  - destruct (st_fields st) as [|f rest] eqn:Hfs; [congruence|].
    rewrite (loop_body_place ctx st Hfs).
    pose proof (reachable_kinds_kept Hreach) as Hkinds.
    apply place_field_queue_split.
    + now apply escape_check_kinds_kept.
    + now rewrite escape_check_fields.
    + now apply escape_check_queue_split.
Qed.

(** X4. Every bit-field run the Partitioner seals holds exactly one maximal
    run of consecutive bit-fields of the input, in input order: it is never
    empty, never holds a plain member, and bit-fields that a plain member
    separates in the input never share a run. *)
Theorem sealed_run_is_maximal_run (ctx : ASTContext) (input : list FieldDecl)
    (buckets : list (option Bucket)) (b : Bucket) :
  partition ctx input = Ok buckets ->
  In (Some b) buckets ->
  isBitfieldRun b = true ->
  exists pre post,
    input = pre ++ fields b ++ post
    /\ fields b <> []
    /\ all_bitfields (fields b)
    /\ ends_plain pre
    /\ starts_plain post.
Proof.
  intros Hpart Hin Hb.
  destruct (partition_non_null ctx input) as (st & Hreach & Hq & Hpart' & _).
  rewrite Hpart in Hpart'. injection Hpart' as ->.
  destruct (reachable_kinds_kept Hreach) as (_ & Hcur & _).
  destruct (reachable_queue_split Hreach) as [P U S Hinput Hfs _ Hsealed Hrun].
  rewrite Hq in Hfs. symmetry in Hfs. apply app_eq_nil in Hfs as (-> & ->).
  assert (Hmax : is_maximal_run_of input (fields b)).
  { unfold sealed_buckets in Hin.
    apply In_tie_off_inv in Hin as [Hin | (Heq & _)].
    - apply In_tie_off_inv in Hin as [Hin | (Heq & _)]; [now apply Hsealed|].
      rewrite <- Heq in Hcur. now elim (generic_not_run Hcur Hb).
    - rewrite <- Heq in Hrun. rewrite Hinput.
      now apply tied_off_run_maximal. }
  destruct Hmax as (pre & post & Heq & Hne & Hbits & Hpre & Hpost).
  now exists pre, post.
Qed.

Lemma sealed_run_is_maximal_run_witness :
  exists pre post,
    example_mixed_input = pre ++ [bit_field "y"] ++ post
    /\ [bit_field "y"] <> []
    /\ all_bitfields [bit_field "y"]
    /\ ends_plain pre
    /\ starts_plain post.
Proof.
  apply (@sealed_run_is_maximal_run example_ctx example_mixed_input
           [Some {| dynamic_class := BitfieldRunClass; size := 1;
                    fields := [bit_field "x"] |};
            Some {| dynamic_class := BucketBase; size := 48;
                    fields := [plain_field "a" "struct pair";
                               plain_field "c" "char"] |};
            Some {| dynamic_class := BitfieldRunClass; size := 1;
                    fields := [bit_field "y"] |};
            Some {| dynamic_class := BucketBase; size := 40;
                    fields := [plain_field "b" "struct pair"] |}]
           {| dynamic_class := BitfieldRunClass; size := 1;
              fields := [bit_field "y"] |});
    [reflexivity | right; right; left; reflexivity | reflexivity].
Defined.

(** ** Capacity under ordinary widths *)

Lemma accumulated_width_app (ctx : ASTContext) (l1 l2 : list FieldDecl) :
  accumulated_width ctx (l1 ++ l2)
  = (accumulated_width ctx l1 + accumulated_width ctx l2)%N.
Proof.
  unfold accumulated_width. induction l1 as [|x l1 IH]; simpl; [reflexivity|].
  rewrite IH. lia.
Qed.

Lemma accumulated_width_zero (ctx : ASTContext) (l : list FieldDecl) :
  Forall (fun f => (0 < field_width ctx f)%N) l ->
  accumulated_width ctx l = 0%N -> l = [].
Proof.
  destruct 1 as [|f l Hf _]; [reflexivity|].
  unfold accumulated_width. simpl. lia.
Qed.

(** Within a cache line, among members of positive width, one that is a
    cache line wide leaves room for no other. *)
Lemma cache_line_wide_alone (ctx : ASTContext) (l : list FieldDecl)
    (f : FieldDecl) :
  Forall (fun f => (0 < field_width ctx f)%N) l ->
  (accumulated_width ctx l <= CACHE_LINE)%N ->
  In f l ->
  (CACHE_LINE <= field_width ctx f)%N ->
  l = [f].
Proof.
  intros Hpos Hle Hin Hwide.
  apply in_split in Hin as (l1 & l2 & ->).
  apply Forall_app in Hpos as (Hpos1 & Hpos2).
  inversion Hpos2 as [|? ? _ Hpos2']; subst.
  rewrite accumulated_width_app in Hle.
  change (f :: l2) with ([f] ++ l2) in Hle.
  rewrite accumulated_width_app in Hle.
  assert (Hf : accumulated_width ctx [f] = field_width ctx f).
  { unfold accumulated_width. simpl. lia. }
  rewrite Hf in Hle.
  rewrite (@accumulated_width_zero ctx l1 Hpos1) by lia.
  rewrite (@accumulated_width_zero ctx l2 Hpos2') by lia.
  reflexivity.
Qed.

(** X5. When every plain member of the input has a width that is positive
    and below [2^63], every generic group the Partitioner seals is within
    the cache line or holds a single oversized member, and a member at
    least a cache line wide shares its group with no other member. *)
Theorem ordinary_widths_keep_capacity (ctx : ASTContext)
    (input : list FieldDecl) (buckets : list (option Bucket)) (b : Bucket) :
  (forall f, In f input -> isBitField f = false ->
             ordinary_width (field_width ctx f)) ->
  partition ctx input = Ok buckets ->
  In (Some b) buckets ->
  isBitfieldRun b = false ->
  capacity_law ctx b
  /\ (forall f, In f (fields b) -> (CACHE_LINE <= field_width ctx f)%N ->
                fields b = [f]).
Proof.
  intros Hwidths Hpart Hin Hgeneric.
  pose proof (@capacity_law_ordinary_widths ctx input buckets b Hwidths Hpart Hin
                Hgeneric) as Hlaw.
  split; [exact Hlaw|]. intros f Hf Hwide.
  destruct Hlaw as [Hle | (f' & Heq & _)].
  - apply (@cache_line_wide_alone ctx (fields b) f); auto.
    destruct (partition_Permutation ctx input) as (bs & Hpart' & _ & Hperm).
    rewrite Hpart in Hpart'. injection Hpart' as <-.
    destruct (@partition_well_kinded ctx input buckets b Hpart Hin)
      as [(_ & Hplain) | Hrun].
    + apply Forall_forall. intros x Hx.
      apply Hwidths.
      * apply (Permutation_in x (Permutation_sym Hperm)).
        apply in_flat_map. now exists (Some b).
      * unfold all_plain in Hplain. rewrite Forall_forall in Hplain.
        now apply Hplain.
    + destruct Hrun as (Hclass & _). unfold isBitfieldRun in Hgeneric.
      now rewrite Hclass in Hgeneric.
  - rewrite Heq in Hf |- *. destruct Hf as [<- | []]. reflexivity.
Qed.

Lemma ordinary_widths_keep_capacity_witness :
  partition example_ctx
    [plain_field "a" "struct pair"; plain_field "c" "char";
     plain_field "l" "long"; plain_field "i" "int"]
  = Ok [Some {| dynamic_class := BucketBase; size := 48;
                fields := [plain_field "a" "struct pair";
                           plain_field "c" "char"] |};
        Some {| dynamic_class := BucketBase; size := 64;
                fields := [plain_field "l" "long"] |};
        Some {| dynamic_class := BucketBase; size := 32;
                fields := [plain_field "i" "int"] |}]
  /\ capacity_law example_ctx
       {| dynamic_class := BucketBase; size := 48;
          fields := [plain_field "a" "struct pair"; plain_field "c" "char"] |}.
Proof.
  split; [reflexivity|].
  refine (proj1 (@ordinary_widths_keep_capacity example_ctx
            [plain_field "a" "struct pair"; plain_field "c" "char";
             plain_field "l" "long"; plain_field "i" "int"]
            [Some {| dynamic_class := BucketBase; size := 48;
                     fields := [plain_field "a" "struct pair";
                                plain_field "c" "char"] |};
             Some {| dynamic_class := BucketBase; size := 64;
                     fields := [plain_field "l" "long"] |};
             Some {| dynamic_class := BucketBase; size := 32;
                     fields := [plain_field "i" "int"] |}]
            _ _ _ _ _)); [|reflexivity|left; reflexivity|reflexivity].
  intros f [<- | [<- | [<- | [<- | []]]]] _; split; reflexivity.
Defined.

(** ** What [size] holds *)

Lemma well_booked_add_generic (ctx : ASTContext) (b : Bucket) (f : FieldDecl) :
  dynamic_class b = BucketBase ->
  well_booked ctx b ->
  well_booked ctx (add b f (field_width ctx f)).
Proof.
  unfold well_booked, booked_size. cbn [add size fields dynamic_class].
  intros -> ->. rewrite accumulated_width_snoc.
  unfold size_add. now rewrite N.Div0.add_mod_idemp_l.
Qed.

Lemma well_booked_add_run (ctx : ASTContext) (b : Bucket) (f : FieldDecl) :
  dynamic_class b = BitfieldRunClass ->
  well_booked ctx b ->
  well_booked ctx (add b f 1).
Proof.
  unfold well_booked, booked_size. cbn [add size fields dynamic_class].
  intros -> ->. rewrite length_app. cbn [length].
  unfold size_add. rewrite N.Div0.add_mod_idemp_l. f_equal. lia.
Qed.

Lemma or_make_Bucket_generic (ctx : ASTContext) (p : option Bucket) :
  holds generic_bucket p -> holds (well_booked ctx) p ->
  dynamic_class (or_make p make_Bucket) = BucketBase
  /\ well_booked ctx (or_make p make_Bucket).
Proof.
  destruct p as [b|]; simpl; [|now split]. now intros (Hclass & _) Hb.
Qed.

Lemma or_make_BitfieldRun_run (ctx : ASTContext) (p : option Bucket) :
  holds run_bucket p -> holds (well_booked ctx) p ->
  dynamic_class (or_make p make_BitfieldRun) = BitfieldRunClass
  /\ well_booked ctx (or_make p make_BitfieldRun).
Proof.
  destruct p as [b|]; simpl; [|now split]. now intros (Hclass & _) Hb.
Qed.

Lemma escape_check_books_kept (ctx : ASTContext) (st : LoopState) :
  books_kept ctx st -> books_kept ctx (escape_check st).
Proof.
  intros (Hall & Hcur & Hrun).
  destruct (escape_check_cases st) as [(_ & ->) | (_ & ->)]; [|now repeat split].
  repeat split; simpl; auto with randstruct.
Qed.

Lemma place_field_books_kept (ctx : ASTContext) (f : FieldDecl)
    (rest : list FieldDecl) (st : LoopState) :
  kinds_kept st ->
  books_kept ctx st -> books_kept ctx (place_field ctx f rest st).
Proof.
  intros (_ & Hkcur & Hkrun) (Hall & Hcur & Hrun). unfold books_kept.
  pose proof (tie_off_holds _ Hall Hrun) as Htied.
  destruct (or_make_Bucket_generic ctx _ Hkcur Hcur) as (Hclass & Hbooked).
  destruct (or_make_BitfieldRun_run ctx _ Hkrun Hrun) as (Hclass' & Hbooked').
  place_field_cases f (or_make (st_currentBucket st) make_Bucket)
                    (Width (getTypeInfo ctx (getType f)));
    fold (field_width ctx f) in *;
    (split; [|split]); cbn [holds]; auto.
  - now apply well_booked_add_run.
  - apply Forall_snoc; [exact Htied|]. now apply well_booked_add_generic.
  - now apply well_booked_add_generic.
Qed.

Lemma reachable_books_kept (ctx : ASTContext) (input : list FieldDecl)
    (st : LoopState) :
  reachable ctx input st -> books_kept ctx st.
Proof.
  induction 1 as [|st Hreach IH Hq].
  - repeat split; simpl; auto.
  - destruct (st_fields st) as [|f rest] eqn:Hfs; [congruence|].
    rewrite (loop_body_place ctx st Hfs).
    apply place_field_books_kept.
    + now apply escape_check_kinds_kept, (reachable_kinds_kept Hreach).
    + now apply escape_check_books_kept.
Qed.

(** X6. The [size] of every group the Partitioner seals is the sum of the
    widths of its members modulo [2^64] for a generic group, and the number
    of its members modulo [2^64] for a bit-field run. *)
Theorem sealed_group_size (ctx : ASTContext) (input : list FieldDecl)
    (buckets : list (option Bucket)) (b : Bucket) :
  partition ctx input = Ok buckets ->
  In (Some b) buckets ->
  (isBitfieldRun b = false ->
   size b = (accumulated_width ctx (fields b) mod SIZE_MODULUS)%N)
  /\ (isBitfieldRun b = true ->
      size b = (N.of_nat (length (fields b)) mod SIZE_MODULUS)%N).
Proof.
  intros Hpart Hin.
  destruct (partition_non_null ctx input) as (st & Hreach & _ & Hpart' & _).
  rewrite Hpart in Hpart'. injection Hpart' as ->.
  destruct (reachable_books_kept Hreach) as (Hall & Hcur & Hrun).
  assert (Hsealed : Forall (holds (well_booked ctx)) (sealed_buckets st)).
  { unfold sealed_buckets. now apply tie_off_holds; [apply tie_off_holds|]. }
  rewrite Forall_forall in Hsealed. specialize (Hsealed _ Hin).
  cbn [holds] in Hsealed. unfold well_booked, booked_size in Hsealed.
  unfold isBitfieldRun.
  destruct (dynamic_class b); split; intros Hkind; try discriminate; exact Hsealed.
Qed.

Lemma sealed_group_size_witness :
  size zero_width_group
  = (accumulated_width example_ctx (fields zero_width_group) mod SIZE_MODULUS)%N.
Proof.
  refine (proj1 (@sealed_group_size example_ctx zero_width_input
                   [Some zero_width_group] zero_width_group _ _) _);
    [reflexivity | left; reflexivity | reflexivity].
Defined.

(** ** Bounds at the head of the loop *)

Lemma escape_check_head_bounds (st : LoopState) :
  st_fields st <> [] ->
  head_bounds st ->
  head_bounds (escape_check st)
  /\ st_skipped (escape_check st) < length (st_fields (escape_check st)).
Proof.
  intros Hq (Hle & Hcur).
  destruct (escape_check_cases st) as [(_ & ->) | (Hlt & ->)].
  - cbn [st_skipped st_fields]. split.
    + split; simpl; [lia|trivial].
    + destruct (st_fields st); [congruence|simpl; lia].
  - now repeat split.
Qed.

Lemma place_field_head_bounds (ctx : ASTContext) (f : FieldDecl)
    (rest : list FieldDecl) (st : LoopState) :
  st_skipped st <= length rest ->
  holds (fun b => full b = false) (st_currentBucket st) ->
  head_bounds (place_field ctx f rest st).
Proof.
  intros Hle Hcur. unfold head_bounds.
  place_field_cases f (or_make (st_currentBucket st) make_Bucket)
                    (Width (getTypeInfo ctx (getType f)));
    (split; cbn [holds]; auto); try lia.
  - rewrite length_app. simpl. lia.
  - now destruct (st_currentBucket st).
Qed.

Lemma reachable_head_bounds (ctx : ASTContext) (input : list FieldDecl)
    (st : LoopState) :
  reachable ctx input st -> head_bounds st.
Proof.
  induction 1 as [|st Hreach IH Hq].
  - split; simpl; [lia|trivial].
  - destruct (escape_check_head_bounds Hq IH) as ((_ & Hcur) & Hlt).
    destruct (st_fields st) as [|f rest] eqn:Hfs; [congruence|].
    rewrite (loop_body_place ctx st Hfs).
    rewrite escape_check_fields, Hfs in Hlt. simpl in Hlt.
    apply place_field_head_bounds; [lia|exact Hcur].
Qed.

(** X7. At the head of every iteration of the Partitioner's loop the
    [skipped] counter is at most the length of the queue, which is at most
    the number of members of the input, and the open generic bucket, if
    there is one, is not full. *)
Theorem skipped_within_queue (ctx : ASTContext) (input : list FieldDecl)
    (st : LoopState) :
  reachable ctx input st ->
  st_skipped st <= length (st_fields st)
  /\ length (st_fields st) <= length input
  /\ (forall b, st_currentBucket st = Some b -> full b = false).
Proof.
  intros Hreach. destruct (reachable_head_bounds Hreach) as (Hle & Hcur).
  split; [exact Hle|]. split.
  - rewrite (Permutation_length (reachable_all_fields Hreach)).
    unfold all_fields. rewrite length_app. lia.
  - intros b Hb. now rewrite Hb in Hcur.
Qed.

Lemma skipped_within_queue_witness :
  st_skipped example_skipped_state <= length (st_fields example_skipped_state)
  /\ length (st_fields example_skipped_state) <= length example_pair_input
  /\ (forall b, st_currentBucket example_skipped_state = Some b ->
                full b = false).
Proof.
  apply (@skipped_within_queue example_ctx example_pair_input
           example_skipped_state).
  apply reach_step; [apply reach_step; [apply reach_init|discriminate]|discriminate].
Defined.

(** ** When the best-effort randomizer is the full randomizer *)

Section Degenerate.
Context {RS : RandomSource}.

Lemma seeded_shuffle_singleton (A : Type) (seed : string) (x : A) :
  seeded_shuffle seed [x] = [x].
Proof. reflexivity. Qed.

Lemma flatten_own_groups (g : Globals) (ctx : ASTContext) (l : list FieldDecl) :
  flatten g (map (own_group ctx) l) = Ok l.
Proof.
  induction l as [|f l IH]; [reflexivity|].
  cbn [map own_group flatten]. now rewrite IH.
Qed.
End Degenerate.

Lemma size_add_small (a b : N) :
  (a + b < SIZE_MODULUS)%N -> size_add a b = (a + b)%N.
Proof. intros Hlt. unfold size_add. now apply N.mod_small. Qed.

Lemma while_fields_wide (ctx : ASTContext) (l : list FieldDecl) :
  Forall (fills_cache_line ctx) l ->
  forall (budget : nat) (buckets : list (option Bucket)),
    length l <= budget ->
    while_fields budget ctx
      {| st_fields := l; st_buckets := buckets; st_currentBucket := None;
         st_currentBitfieldRun := None; st_skipped := 0 |}
    = Ok {| st_fields := []; st_buckets := buckets ++ map (own_group ctx) l;
            st_currentBucket := None; st_currentBitfieldRun := None;
            st_skipped := 0 |}.
Proof.
  induction 1 as [|f l (Hplain & Hwide & Hlt) _ IH]; intros budget buckets Hle.
  - destruct budget; simpl; now rewrite app_nil_r.
  - destruct budget as [|budget]; [simpl in Hle; lia|].
    cbn [while_fields st_fields]. unfold loop_body, escape_check.
    cbn [st_fields st_skipped length Nat.leb]. unfold place_field.
    rewrite Hplain.
    cbn [st_currentBitfieldRun st_currentBucket st_buckets tie_off or_make].
    rewrite canFit_make_Bucket. fold (field_width ctx f).
    assert (Hadd : add make_Bucket f (field_width ctx f)
                   = {| dynamic_class := BucketBase;
                        size := field_width ctx f; fields := [f] |}).
    { unfold add. cbn [make_Bucket size fields dynamic_class app].
      rewrite size_add_small by (now rewrite N.add_0_l).
      now rewrite N.add_0_l. }
    assert (Hfull : full (add make_Bucket f (field_width ctx f)) = true).
    { rewrite Hadd. now apply N.leb_le. }
    assert (Hown : Some (add make_Bucket f (field_width ctx f))
                   = own_group ctx f) by now rewrite Hadd.
    rewrite Hfull, Hown.
    rewrite IH by (simpl in Hle; lia).
    cbn [map]. rewrite <- app_assoc. reflexivity.
Qed.

Lemma partition_wide (ctx : ASTContext) (l : list FieldDecl) :
  Forall (fills_cache_line ctx) l ->
  partition ctx l = Ok (map (own_group ctx) l).
Proof.
  intros Hwide. unfold partition, initial_state.
  rewrite (while_fields_wide Hwide); [reflexivity|].
  unfold iteration_bound. nia.
Qed.

(** X8. When every member is a plain member at least a cache line wide
    (and below [2^64]), the Partitioner seals each member in a group of its
    own, in input order, and [rearrange] returns exactly what the free
    function [randomize] returns on the same input. *)
Theorem wide_members_fully_randomized {RS : RandomSource} (g : Globals)
    (ctx : ASTContext) (input : list FieldDecl) :
  Forall (fills_cache_line ctx) input ->
  partition ctx input = Ok (map (own_group ctx) input)
  /\ rearrange g ctx input = Ok (randomize_decls g input).
Proof.
  intros Hwide. pose proof (partition_wide Hwide) as Hpart.
  split; [exact Hpart|].
  unfold rearrange, perfrandomize, randomize_decls. rewrite Hpart.
  cbn [bind]. rewrite seeded_shuffle_map. apply flatten_own_groups.
Qed.

Lemma wide_members_fully_randomized_witness :
  partition example_ctx example_wide_input
  = Ok (map (own_group example_ctx) example_wide_input)
  /\ rearrange example_globals example_ctx example_wide_input
     = Ok (randomize_decls example_globals example_wide_input).
Proof.
  apply (@wide_members_fully_randomized lehmer_source example_globals
           example_ctx example_wide_input).
  repeat apply Forall_cons; try apply Forall_nil;
    (split; [reflexivity|split; [vm_compute; discriminate|reflexivity]]).
Defined.

Lemma bucket_after_fields (ctx : ASTContext) (l : list FieldDecl) :
  forall b,
    fields (bucket_after ctx b l) = fields b ++ l
    /\ dynamic_class (bucket_after ctx b l) = dynamic_class b.
Proof.
  induction l as [|f l IH]; intros b; simpl.
  - now rewrite app_nil_r.
  - destruct (IH (add b f (field_width ctx f))) as (-> & ->). simpl.
    now rewrite <- app_assoc.
Qed.

Lemma accumulated_width_cons (ctx : ASTContext) (f : FieldDecl)
    (l : list FieldDecl) :
  accumulated_width ctx (f :: l)
  = (field_width ctx f + accumulated_width ctx l)%N.
Proof. reflexivity. Qed.

(** One iteration on a plain member that fits without filling the bucket. *)
Lemma loop_body_small_step (ctx : ASTContext) (f : FieldDecl)
    (rest : list FieldDecl) (p : option Bucket)
    (buckets : list (option Bucket)) :
  isBitField f = false ->
  dynamic_class (or_make p make_Bucket) = BucketBase ->
  (size (or_make p make_Bucket) + field_width ctx f < CACHE_LINE)%N ->
  loop_body ctx
    {| st_fields := f :: rest; st_buckets := buckets; st_currentBucket := p;
       st_currentBitfieldRun := None; st_skipped := 0 |}
  = {| st_fields := rest; st_buckets := buckets;
       st_currentBucket :=
         Some (add (or_make p make_Bucket) f (field_width ctx f));
       st_currentBitfieldRun := None; st_skipped := 0 |}.
Proof.
  intros Hf Hclass Hsum. unfold CACHE_LINE in Hsum.
  assert (Hsmall : size_add (size (or_make p make_Bucket)) (field_width ctx f)
                   = (size (or_make p make_Bucket) + field_width ctx f)%N).
  { apply size_add_small. unfold SIZE_MODULUS.
    assert (64 < 2 ^ 64)%N by reflexivity. lia. }
  unfold loop_body, escape_check.
  cbn [st_fields st_skipped length Nat.leb]. unfold place_field.
  rewrite Hf.
  cbn [st_currentBitfieldRun st_currentBucket st_buckets tie_off].
  fold (field_width ctx f).
  assert (Hfit : canFit (or_make p make_Bucket) (field_width ctx f) = true).
  { unfold canFit, Bucket_canFit. rewrite Hclass, Hsmall.
    apply orb_true_iff. right. apply N.leb_le. unfold CACHE_LINE. lia. }
  assert (Hopen : full (add (or_make p make_Bucket) f (field_width ctx f))
                  = false).
  { unfold full. cbn [add size]. rewrite Hsmall.
    apply N.leb_gt. unfold CACHE_LINE. lia. }
  now rewrite Hfit, Hopen.
Qed.

(** Plain members that together stay below the cache line all go into the
    open bucket, one after the other. *)
Lemma while_fields_small (ctx : ASTContext) (l : list FieldDecl) :
  forall (f : FieldDecl) (p : option Bucket) (budget : nat)
         (buckets : list (option Bucket)),
    all_plain (f :: l) ->
    dynamic_class (or_make p make_Bucket) = BucketBase ->
    (size (or_make p make_Bucket) + accumulated_width ctx (f :: l)
     < CACHE_LINE)%N ->
    length (f :: l) <= budget ->
    while_fields budget ctx
      {| st_fields := f :: l; st_buckets := buckets; st_currentBucket := p;
         st_currentBitfieldRun := None; st_skipped := 0 |}
    = Ok {| st_fields := []; st_buckets := buckets;
            st_currentBucket :=
              Some (bucket_after ctx (or_make p make_Bucket) (f :: l));
            st_currentBitfieldRun := None; st_skipped := 0 |}.
Proof.
  induction l as [|f' l IH]; intros f p budget buckets Hplain Hclass Hsum Hle;
    (destruct budget as [|budget]; [simpl in Hle; lia|]);
    inversion Hplain as [|? ? Hf Hplain']; subst;
    rewrite accumulated_width_cons in Hsum;
    cbn [while_fields st_fields];
    rewrite loop_body_small_step by (auto; lia).
  - now destruct budget.
  - rewrite IH; try assumption.
    + reflexivity.
    + cbn [or_make add size]. unfold CACHE_LINE in *.
      rewrite size_add_small; [lia|].
      unfold SIZE_MODULUS. assert (64 < 2 ^ 64)%N by reflexivity. lia.
    + simpl in Hle |- *. lia.
Qed.

(** X9. When all members are plain and their widths add up to less than a
    cache line, the Partitioner seals them all in one generic group, in
    input order, and [rearrange] returns exactly what the free function
    [randomize] returns on the same input. *)
Theorem small_record_fully_randomized {RS : RandomSource} (g : Globals)
    (ctx : ASTContext) (input : list FieldDecl) :
  all_plain input ->
  (accumulated_width ctx input < CACHE_LINE)%N ->
  (input <> [] ->
   partition ctx input = Ok [Some (bucket_after ctx make_Bucket input)]
   /\ fields (bucket_after ctx make_Bucket input) = input)
  /\ rearrange g ctx input = Ok (randomize_decls g input).
Proof.
  intros Hplain Hsum. destruct input as [|f l].
  - split; [congruence|reflexivity].
  - assert (Hpart : partition ctx (f :: l)
                    = Ok [Some (bucket_after ctx make_Bucket (f :: l))]).
    { unfold partition, initial_state.
      rewrite (@while_fields_small ctx l f None); auto.
      unfold iteration_bound. nia. }
    destruct (bucket_after_fields ctx (f :: l) make_Bucket) as (Hfields & Hclass).
    split; [intros _; split; [exact Hpart|exact Hfields]|].
    unfold rearrange, perfrandomize, randomize_decls. rewrite Hpart.
    cbn [bind]. rewrite seeded_shuffle_singleton. cbn [flatten bind].
    unfold randomize. rewrite Hclass. cbn [make_Bucket dynamic_class].
    unfold Bucket_randomize. rewrite Hfields. cbn [make_Bucket fields app].
    now rewrite app_nil_r.
Qed.

Lemma small_record_fully_randomized_witness :
  partition example_ctx example_small_input
  = Ok [Some {| dynamic_class := BucketBase; size := 48;
                fields := example_small_input |}]
  /\ rearrange example_globals example_ctx example_small_input
     = Ok (randomize_decls example_globals example_small_input).
Proof.
  destruct (@small_record_fully_randomized lehmer_source example_globals
              example_ctx example_small_input) as (Hpart & Hout).
  - repeat constructor.
  - reflexivity.
  - split; [|exact Hout]. apply Hpart. discriminate.
Defined.

(** ** A record of bit-fields only *)

(** X10. A member list that holds bit-fields only comes back from
    [rearrange] unchanged, whatever the seed: the single bit-field run is
    the only group and is not scrambled. *)
Theorem bitfields_only_unchanged {RS : RandomSource} (g : Globals)
    (ctx : ASTContext) (input : list FieldDecl) :
  all_bitfields input ->
  rearrange g ctx input = Ok input.
Proof.
  intros Hall. destruct input as [|f l]; [reflexivity|].
  assert (Hne : f :: l <> []) by discriminate.
  destruct (run_after_from_fields (f :: l) make_BitfieldRun) as (Hfields & Hclass).
  unfold rearrange, perfrandomize.
  rewrite (partition_bitfields ctx Hall Hne). cbn [bind].
  rewrite seeded_shuffle_singleton. cbn [flatten bind].
  unfold randomize, run_after. rewrite Hclass.
  cbn [make_BitfieldRun dynamic_class]. unfold BitfieldRun_randomize.
  rewrite Hfields. cbn [make_BitfieldRun fields app].
  now rewrite app_nil_r.
Qed.

Lemma bitfields_only_unchanged_witness :
  rearrange example_globals example_ctx
    [bit_field "x"; bit_field "y"; bit_field "z"]
  = Ok [bit_field "x"; bit_field "y"; bit_field "z"].
Proof.
  apply (@bitfields_only_unchanged lehmer_source example_globals example_ctx
           [bit_field "x"; bit_field "y"; bit_field "z"]).
  repeat constructor.
Defined.
